(** * FOEDUS core: page version word, thread ids, fixed strings, array factory

    A shallow embedding of the parts of foedus-core that the specification
    talks about, followed by the properties that hold of them.

    Conventions of the embedding.
    - A C++ unsigned integer of width [w] is a [Z] in [0, 2^w); every
      conversion the compiler inserts (a narrowing return, a parameter of a
      narrower type, an assignment to a narrower member) is written out with
      [uint8], [uint16], [uint32] or [uint64].
    - [x & y], [x | y], [x << n], [x >> n] are [Z.land], [Z.lor], [Z.shiftl],
      [Z.shiftr]; a conversion to [bool] is [to_bool].
    - [ASSERT_ND] is compiled out of release builds.  Assertions are modelled
      as separate boolean functions, so that a theorem can say whether an
      assertion would hold, and they never change what a method computes.
    - A method that writes [data_] returns the new object. *)

From Stdlib Require Import ZArith NArith Lia Bool List Ascii.
From Stdlib Require Import Btauto.
From coqutil Require Import Z.bitblast.
Import ListNotations.
Local Open Scope Z_scope.

(** ** Integer conversions *)

Definition uint8 (x : Z) : Z := x mod 2 ^ 8.
Definition uint16 (x : Z) : Z := x mod 2 ^ 16.
Definition uint32 (x : Z) : Z := x mod 2 ^ 32.
Definition uint64 (x : Z) : Z := x mod 2 ^ 64.

(** Contextual conversion of an integer to [bool]: nonzero is [true]. *)
Definition to_bool (x : Z) : bool := negb (x =? 0).

(** [~x] on a 64-bit unsigned operand. *)
Definition not64 (x : Z) : Z := uint64 (Z.lnot x).

(** ** foedus/thread/thread_id.hpp *)

Module thread.

Definition kMaxThreadGroupId : Z := 0xFF.
Definition kMaxThreadLocalOrdinal : Z := 0xFF.
Definition kMaxThreadId : Z := 0xFFFF.

(** [ThreadId compose_thread_id(ThreadGroupId node, ThreadLocalOrdinal local_core)]:
    both parameters are [uint8_t], the expression is computed in [int] and
    the result is returned as [uint16_t]. *)
Definition compose_thread_id (node local_core : Z) : Z :=
  let node := uint8 node in
  let local_core := uint8 local_core in
  uint16 (Z.lor (Z.shiftl node 8) local_core).

(** [ThreadGroupId decompose_numa_node(ThreadId global_id)] *)
Definition decompose_numa_node (global_id : Z) : Z :=
  let global_id := uint16 global_id in
  uint8 (Z.land (Z.shiftr global_id 8) 0xFF).

(** [ThreadLocalOrdinal decompose_numa_local_ordinal(ThreadId global_id)] *)
Definition decompose_numa_local_ordinal (global_id : Z) : Z :=
  let global_id := uint16 global_id in
  uint8 (Z.land global_id 0xFF).

End thread.

(** ** foedus/storage/page.hpp: the page version word *)

Module storage.

Definition kPageVersionLockedBit : Z := Z.shiftl 1 63.
Definition kPageVersionInsertingBit : Z := Z.shiftl 1 62.
Definition kPageVersionSplittingBit : Z := Z.shiftl 1 61.
Definition kPageVersionDeletedBit : Z := Z.shiftl 1 60.
Definition kPageVersionHasFosterChildBit : Z := Z.shiftl 1 59.
Definition kPageVersionIsBorderBit : Z := Z.shiftl 1 58.
Definition kPageVersionIsSupremumBit : Z := Z.shiftl 1 57.
Definition kPageVersionInsertionCounterMask : Z := 0x01F8000000000000.
Definition kPageVersionInsertionCounterShifts : Z := 51.
Definition kPageVersionSplitCounterMask : Z := 0x0007FFFE00000000.
Definition kPageVersionSplitCounterShifts : Z := 33.
Definition kPageVersionKeyCountMask : Z := 0xFFFF0000.
Definition kPageVersionKeyCountShifts : Z := 16.
Definition kPageVersionLayerMask : Z := 0x0000FF00.
Definition kPageVersionLayerShifts : Z := 8.

Definition kPageVersionUnlockMask : Z :=
  Z.lor (Z.lor (Z.lor kPageVersionHasFosterChildBit
                      kPageVersionIsBorderBit)
               kPageVersionKeyCountMask)
        kPageVersionLayerMask.

(** [struct PageVersion { uint64_t data_; }] *)
Record PageVersion : Set := mkPageVersion { data_ : Z }.

(** The class invariant of the member's type: [data_] is a [uint64_t]. *)
Definition is_uint64 (v : PageVersion) : Prop := 0 <= data_ v < 2 ^ 64.

Definition initialize
    (locked has_foster_child is_border is_high_fence_supremum : bool)
    (layer : Z) : PageVersion :=
  let layer := uint8 layer in
  let d := 0 in
  let d := if locked then Z.lor d kPageVersionLockedBit else d in
  let d := if has_foster_child
           then Z.lor d kPageVersionHasFosterChildBit else d in
  let d := if is_border then Z.lor d kPageVersionIsBorderBit else d in
  let d := if is_high_fence_supremum
           then Z.lor d kPageVersionIsSupremumBit else d in
  let d := Z.lor d (uint64 (Z.shiftl (uint64 layer) kPageVersionLayerShifts)) in
  mkPageVersion d.

Definition set_data (_ : PageVersion) (data : Z) : PageVersion :=
  mkPageVersion (uint64 data).

Definition is_locked (v : PageVersion) : bool :=
  to_bool (Z.land (data_ v) kPageVersionLockedBit).
Definition is_inserting (v : PageVersion) : bool :=
  to_bool (Z.land (data_ v) kPageVersionInsertingBit).
Definition is_splitting (v : PageVersion) : bool :=
  to_bool (Z.land (data_ v) kPageVersionSplittingBit).
Definition is_deleted (v : PageVersion) : bool :=
  to_bool (Z.land (data_ v) kPageVersionDeletedBit).
Definition has_foster_child (v : PageVersion) : bool :=
  to_bool (Z.land (data_ v) kPageVersionHasFosterChildBit).
Definition is_border (v : PageVersion) : bool :=
  to_bool (Z.land (data_ v) kPageVersionIsBorderBit).
Definition is_high_fence_supremum (v : PageVersion) : bool :=
  to_bool (Z.land (data_ v) kPageVersionIsSupremumBit).

Definition get_insert_counter (v : PageVersion) : Z :=
  uint32 (Z.shiftr (Z.land (data_ v) kPageVersionInsertionCounterMask)
                   kPageVersionInsertionCounterShifts).
Definition get_split_counter (v : PageVersion) : Z :=
  uint32 (Z.shiftr (Z.land (data_ v) kPageVersionSplitCounterMask)
                   kPageVersionSplitCounterShifts).
Definition get_key_count (v : PageVersion) : Z :=
  uint16 (Z.shiftr (Z.land (data_ v) kPageVersionKeyCountMask)
                   kPageVersionKeyCountShifts).
Definition get_layer (v : PageVersion) : Z :=
  uint8 (Z.shiftr (Z.land (data_ v) kPageVersionLayerMask)
                  kPageVersionLayerShifts).

Definition set_inserting (v : PageVersion) : PageVersion :=
  mkPageVersion (Z.lor (data_ v) kPageVersionInsertingBit).

Definition increment_key_count (v : PageVersion) : PageVersion :=
  mkPageVersion (uint64 (data_ v + Z.shiftl 1 kPageVersionKeyCountShifts)).

Definition set_inserting_and_increment_key_count (v : PageVersion)
  : PageVersion :=
  increment_key_count (set_inserting v).

(** [void set_key_count(uint8_t key_count)] *)
Definition set_key_count (v : PageVersion) (key_count : Z) : PageVersion :=
  let key_count := uint8 key_count in
  mkPageVersion
    (Z.lor (Z.land (data_ v) (not64 (uint64 kPageVersionKeyCountMask)))
           (uint64 (Z.shiftl (uint64 key_count) kPageVersionKeyCountShifts))).

(** The closing [ASSERT_ND(get_key_count() == key_count)] of [set_key_count]. *)
Definition set_key_count_assert (v : PageVersion) (key_count : Z) : bool :=
  get_key_count (set_key_count v key_count) =? uint8 key_count.

Definition set_splitting (v : PageVersion) : PageVersion :=
  mkPageVersion (Z.lor (data_ v) kPageVersionSplittingBit).

Definition set_has_foster_child (v : PageVersion) (has : bool)
  : PageVersion :=
  if has
  then mkPageVersion (Z.lor (data_ v) kPageVersionHasFosterChildBit)
  else mkPageVersion (Z.land (data_ v) (not64 kPageVersionHasFosterChildBit)).

(** [stable_version] spins on the word, which other threads change between
    two loads.  [reads] is the sequence of values that the successive loads
    of [data_] observe; [None] means that the loop is still spinning when
    the sequence ends. *)
Fixpoint stable_version (reads : list Z) : option PageVersion :=
  match reads with
  | [] => None
  | ver :: later =>
      if Z.land ver (Z.lor kPageVersionInsertingBit kPageVersionSplittingBit)
         =? 0
      then Some (mkPageVersion ver)
      else stable_version later
  end.

(** The local [insertion_counter] of [unlock_version] at the point where
    the word is composed. *)
Definition unlock_insertion_counter (page_version : Z) : Z :=
  let insertion_counter :=
    Z.land page_version kPageVersionInsertionCounterMask in
  if to_bool (Z.land page_version kPageVersionInsertingBit)
  then uint64 (insertion_counter
               + Z.shiftl 1 kPageVersionInsertionCounterShifts)
  else insertion_counter.

(** The local [split_counter] of [unlock_version]. *)
Definition unlock_split_counter (page_version : Z) : Z :=
  let split_counter := Z.land page_version kPageVersionSplitCounterMask in
  if to_bool (Z.land page_version kPageVersionSplittingBit)
  then uint64 (split_counter + Z.shiftl 1 kPageVersionSplitCounterShifts)
  else split_counter.

(** [ASSERT_ND(page_version & kPageVersionLockedBit)] *)
Definition unlock_version_assert_locked (v : PageVersion) : bool :=
  to_bool (Z.land (data_ v) kPageVersionLockedBit).

(** [ASSERT_ND((insertion_counter & split_counter) == 0)] *)
Definition unlock_version_assert_counters (v : PageVersion) : bool :=
  Z.land (unlock_insertion_counter (data_ v))
         (unlock_split_counter (data_ v)) =? 0.

Definition unlock_version (v : PageVersion) : PageVersion :=
  let page_version := data_ v in
  let base := Z.land page_version kPageVersionUnlockMask in
  let insertion_counter := unlock_insertion_counter page_version in
  let split_counter := unlock_split_counter page_version in
  mkPageVersion (Z.lor (Z.lor base insertion_counter) split_counter).

(** [lock_version] spins on the word with a load and a compare-and-swap.
    [accesses] is the sequence of values that the word has at the successive
    accesses of this thread: the load of an iteration and, when the loaded
    word is unlocked, the comparison of the compare-and-swap.  The result is
    the word that the successful compare-and-swap stores; [None] means that
    the loop is still spinning when the sequence ends. *)
Fixpoint lock_version (accesses : list Z) : option PageVersion :=
  match accesses with
  | [] => None
  | ver :: later =>
      if to_bool (Z.land ver kPageVersionLockedBit)
      then lock_version later
      else
        let new_ver := Z.lor ver kPageVersionLockedBit in
        match later with
        | [] => None
        | current :: later' =>
            if current =? ver
            then Some (mkPageVersion new_ver)
            else lock_version later'
        end
  end.

(** [enum PageType] *)
Inductive PageType : Set :=
| kUnknownPageType
| kArrayPageType
| kMasstreeIntermediatePageType
| kMasstreeBorderPageType
| kSequentialPageType
| kSequentialRootPageType
| kHashRootPageType
| kHashBinPageType
| kHashDataPageType.

(** The values that the enumerators are given. *)
Definition PageType_value (t : PageType) : Z :=
  match t with
  | kUnknownPageType => 0
  | kArrayPageType => 1
  | kMasstreeIntermediatePageType => 2
  | kMasstreeBorderPageType => 3
  | kSequentialPageType => 4
  | kSequentialRootPageType => 5
  | kHashRootPageType => 6
  | kHashBinPageType => 7
  | kHashDataPageType => 8
  end.

(** Modelled from the spec: the value of a default-constructed [Epoch]
    (foedus/epoch.hpp is not part of the sources): 0, the invalid epoch. *)
Definition Epoch_default : Z := 0.

(** [struct PageHeader].  [StorageId] and [Checksum] are 4-byte unsigned
    integers, [thread::ThreadGroupId] is a [uint8_t]. *)
Record PageHeader : Set := mkPageHeader {
  page_id_ : Z;
  storage_id_ : Z;
  checksum_ : Z;
  page_type_ : Z;
  snapshot_ : bool;
  root_ : bool;
  stat_latest_modifier_ : Z;
  stat_latest_modify_epoch_ : Z;
  page_version_ : PageVersion
}.

(** [static_cast<PageType>(page_type_)], as the value of the enumeration. *)
Definition get_page_type (h : PageHeader) : Z := page_type_ h.

(** [init_volatile(VolatilePagePointer page_id, StorageId storage_id,
    PageType page_type, bool root)]; [page_id] is [page_id.word] and
    [page_type] the value of the enumeration. *)
Definition init_volatile (_ : PageHeader)
    (page_id storage_id page_type : Z) (root : bool) : PageHeader :=
  mkPageHeader (uint64 page_id) (uint32 storage_id) 0 (uint8 page_type)
    false root 0 Epoch_default (mkPageVersion 0).

(** [init_snapshot(SnapshotPagePointer page_id, StorageId storage_id,
    PageType page_type, bool root)] *)
Definition init_snapshot (_ : PageHeader)
    (page_id storage_id page_type : Z) (root : bool) : PageHeader :=
  mkPageHeader (uint64 page_id) (uint32 storage_id) 0 (uint8 page_type)
    true root 0 Epoch_default (mkPageVersion 0).

(** [struct Page]: the header and the array [char data_[kPageSize -
    sizeof(PageHeader)]], here [page_data_], a list of bytes. *)
Record Page : Set := mkPage { header_ : PageHeader; page_data_ : list Z }.

Definition get_header (p : Page) : PageHeader := header_ p.

(** [std::memset(page, 0, kPageSize)]: every byte of the header and of the
    array becomes 0. *)
Definition memset_page_zero (p : Page) : Page :=
  mkPage (mkPageHeader 0 0 0 0 false false 0 0 (mkPageVersion 0))
         (repeat 0 (List.length (page_data_ p))).

(** [struct VolatilePageInitializer]: the three members, named
    [storage_id_], [page_type_] and [root_] in the source, and the virtual
    [initialize_more] of the derived class. *)
Record VolatilePageInitializer : Type := mkVolatilePageInitializer {
  initializer_storage_id_ : Z;
  initializer_page_type_ : Z;
  initializer_root_ : bool;
  initialize_more : Page -> Page
}.

(** [VolatilePageInitializer::initialize(Page* page, VolatilePagePointer page_id)] *)
Definition VolatilePageInitializer_initialize
    (self : VolatilePageInitializer) (page : Page) (page_id : Z) : Page :=
  let page := memset_page_zero page in
  let page :=
    mkPage (init_volatile (get_header page) page_id
              (initializer_storage_id_ self) (initializer_page_type_ self)
              (initializer_root_ self))
           (page_data_ page) in
  initialize_more self page.

(** [DummyVolatilePageInitializer] and [kDummyPageInitializer] *)
Definition kDummyPageInitializer : VolatilePageInitializer :=
  mkVolatilePageInitializer (uint32 0) (PageType_value kUnknownPageType) true
    (fun page => page).

End storage.

(** ** foedus/assorted/fixed_string.hpp *)

Module assorted.

(** Conversion to [uint32_t] of a length, which is a [size_t] or a
    [uint32_t] in the source. *)
Definition uint32N (n : N) : N := (n mod 2 ^ 32)%N.

(** [a > b] on unsigned operands. *)
Definition gtb (a b : N) : bool := (b <? a)%N.

(** [std::memcpy(dst, src, n * sizeof(CHAR))] on arrays of [CHAR]: the
    first [n] elements of [dst] are replaced by those of [src]. *)
Definition memcpy {CHAR : Type} (dst src : list CHAR) (n : nat) : list CHAR :=
  firstn n src ++ skipn n dst.

Section FixedString.

Variable CHAR : Type.

(** [template <uint MAXLEN, typename CHAR> class FixedString]: the members
    are [uint32_t length_] and [CHAR data_[MAXLEN]].  The template
    parameter [MAXLEN] is an argument of every operation that reads it. *)
Record FixedString : Type :=
  mkFixedString { length_ : N; data_ : list CHAR }.

Definition length (s : FixedString) : N := length_ s.
Definition size (s : FixedString) : N := length_ s.
Definition capacity (MAXLEN : N) (_ : FixedString) : N := MAXLEN.
Definition max_size (MAXLEN : N) (_ : FixedString) : N := MAXLEN.
Definition clear (s : FixedString) : FixedString :=
  mkFixedString 0 (data_ s).
Definition empty (s : FixedString) : bool := (length_ s =? 0)%N.
Definition data (s : FixedString) : list CHAR := data_ s.

(** [std::basic_string<CHAR>(data_, length_)] *)
Definition str (s : FixedString) : list CHAR :=
  firstn (N.to_nat (length_ s)) (data_ s).

(** [static uint32_t strlen(const CHAR* str)]: [std::strlen] returns a
    [size_t], the function returns it as a [uint32_t].  The argument is
    the sequence of characters before the terminator. *)
Definition strlen (s : list CHAR) : N :=
  uint32N (N.of_nat (List.length s)).

(** [template <uint MAXLEN2> void assign(const FixedString<MAXLEN2, CHAR>& other)] *)
Definition assign (MAXLEN : N) (self other : FixedString) : FixedString :=
  let len := uint32N (if gtb (length other) MAXLEN
                      then MAXLEN else length other) in
  mkFixedString len (memcpy (data_ self) (data other) (N.to_nat len)).

(** [ASSERT_ND(other.length() < MAXLEN2)] at the head of the overload above. *)
Definition assign_assert (MAXLEN2 : N) (other : FixedString) : bool :=
  (length other <? MAXLEN2)%N.

(** [void assign(const std::basic_string<CHAR>& str)] *)
Definition assign_string (MAXLEN : N) (self : FixedString)
    (s : list CHAR) : FixedString :=
  let sz := N.of_nat (List.length s) in
  let len := uint32N (if gtb sz MAXLEN then MAXLEN else sz) in
  mkFixedString len (memcpy (data_ self) s (N.to_nat len)).

(** [void assign(const CHAR* str, uint32_t len)]: [s] is the memory that
    [str] points to. *)
Definition assign_ptr (MAXLEN : N) (self : FixedString)
    (s : list CHAR) (len : N) : FixedString :=
  let len := uint32N len in
  let len' := uint32N (if gtb len MAXLEN then MAXLEN else len) in
  mkFixedString len' (memcpy (data_ self) s (N.to_nat len')).

(** The constructors.  [mem] is the object's memory before construction;
    its [length_] and [data_] are indeterminate. *)
Definition FixedString_default (mem : FixedString) : FixedString :=
  mkFixedString 0 (data_ mem).
(** Construction from a [FixedString<MAXLEN2, CHAR>].  The constructor
    template, which calls [assign], is selected for a source of another
    capacity only: for a source of the same type C++ selects the implicitly
    declared copy constructor, which copies [length_] and every element of
    [data_]. *)
Definition FixedString_copy (MAXLEN MAXLEN2 : N) (mem other : FixedString)
  : FixedString :=
  if (MAXLEN2 =? MAXLEN)%N
  then mkFixedString (length_ other) (data_ other)
  else assign MAXLEN mem other.
Definition FixedString_string (MAXLEN : N) (mem : FixedString)
    (s : list CHAR) : FixedString := assign_string MAXLEN mem s.
Definition FixedString_ptr (MAXLEN : N) (mem : FixedString)
    (s : list CHAR) (len : N) : FixedString := assign_ptr MAXLEN mem s len.
Definition FixedString_cstr (MAXLEN : N) (mem : FixedString)
    (s : list CHAR) : FixedString := assign_ptr MAXLEN mem s (strlen s).

(** [operator=] for a [FixedString<MAXLEN2, CHAR>] and for a
    [std::basic_string].  As for the constructor, the template is selected
    for a source of another capacity only, and a source of the same type is
    assigned by the implicitly declared copy assignment, member by member. *)
Definition op_assign (MAXLEN MAXLEN2 : N) (self other : FixedString)
  : FixedString :=
  if (MAXLEN2 =? MAXLEN)%N
  then mkFixedString (length_ other) (data_ other)
  else assign MAXLEN self other.
Definition op_assign_string (MAXLEN : N) (self : FixedString)
    (s : list CHAR) : FixedString := assign_string MAXLEN self s.

(** An object of type [FixedString<MAXLEN, CHAR>] in a state that the
    class means to maintain: the array has [MAXLEN] elements and the
    length is within it. *)
Definition well_formed (MAXLEN : N) (s : FixedString) : Prop :=
  List.length (data_ s) = N.to_nat MAXLEN /\ (length_ s <= MAXLEN)%N.

End FixedString.

Arguments mkFixedString {CHAR}.
Arguments length_ {CHAR}.
Arguments data_ {CHAR}.
Arguments length {CHAR}.
Arguments size {CHAR}.
Arguments capacity {CHAR}.
Arguments max_size {CHAR}.
Arguments clear {CHAR}.
Arguments empty {CHAR}.
Arguments data {CHAR}.
Arguments str {CHAR}.
Arguments strlen {CHAR}.
Arguments assign {CHAR}.
Arguments assign_assert {CHAR}.
Arguments assign_string {CHAR}.
Arguments assign_ptr {CHAR}.
Arguments FixedString_default {CHAR}.
Arguments FixedString_copy {CHAR}.
Arguments FixedString_string {CHAR}.
Arguments FixedString_ptr {CHAR}.
Arguments FixedString_cstr {CHAR}.
Arguments op_assign {CHAR}.
Arguments op_assign_string {CHAR}.
Arguments well_formed {CHAR}.

Section FixedStringCompare.

Variable CHAR : Type.

(** [sizeof(CHAR)] and the object representation of a [CHAR], a sequence
    of that many unsigned bytes. *)
Variable sizeof_CHAR : nat.
Variable object_bytes : CHAR -> list N.

(** The bytes of an array of [CHAR]. *)
Definition array_bytes (a : list CHAR) : list N := flat_map object_bytes a.

(** [std::memcmp(a, b, n)] on the bytes at [a] and [b]: the sign of the
    result is that of the difference of the first pair of bytes that
    differ, 0 when the first [n] bytes agree.  The source reads the sign
    only. *)
Fixpoint memcmp (a b : list N) (n : nat) {struct n} : Z :=
  match n, a, b with
  | S n', x :: a', y :: b' =>
      if (x <? y)%N then -1
      else if (y <? x)%N then 1
      else memcmp a' b' n'
  | _, _, _ => 0
  end.

(** [std::min<uint32_t>(a, b)] *)
Definition min_uint32 (a b : N) : N :=
  let a := uint32N a in
  let b := uint32N b in
  if (b <? a)%N then b else a.

(** [template <uint MAXLEN2> bool operator==(const FixedString<MAXLEN2, CHAR>& other) const] *)
Definition op_eq (self other : FixedString CHAR) : bool :=
  if (length_ self =? 0)%N
  then (length other =? 0)%N
  else (length_ self =? length other)%N
       && (memcmp (array_bytes (data_ self)) (array_bytes (data other))
             (N.to_nat (length_ self) * sizeof_CHAR) =? 0).

(** [operator!=] on a [FixedString] *)
Definition op_ne (self other : FixedString CHAR) : bool :=
  negb (op_eq self other).

(** [template <uint MAXLEN2> bool operator<(const FixedString<MAXLEN2, CHAR>& other) const] *)
Definition op_lt (self other : FixedString CHAR) : bool :=
  let min_len := min_uint32 (length_ self) (length other) in
  if (min_len =? 0)%N
  then (length_ self <? length other)%N
  else
    let result :=
      memcmp (array_bytes (data_ self)) (array_bytes (data other))
        (N.to_nat min_len * sizeof_CHAR) in
    if negb (result =? 0)
    then result <? 0
    else (length_ self <? length other)%N.

(** [bool operator==(const std::basic_string<CHAR>& str) const] *)
Definition op_eq_string (self : FixedString CHAR) (s : list CHAR) : bool :=
  if (length_ self =? 0)%N
  then (N.of_nat (List.length s) =? 0)%N
  else (length_ self =? N.of_nat (List.length s))%N
       && (memcmp (array_bytes (data_ self)) (array_bytes s)
             (N.to_nat (length_ self) * sizeof_CHAR) =? 0).

(** [bool operator!=(const std::basic_string<CHAR>& str) const] *)
Definition op_ne_string (self : FixedString CHAR) (s : list CHAR) : bool :=
  negb (op_eq_string self s).

End FixedStringCompare.

Arguments array_bytes {CHAR}.
Arguments op_eq {CHAR}.
Arguments op_ne {CHAR}.
Arguments op_lt {CHAR}.
Arguments op_eq_string {CHAR}.
Arguments op_ne_string {CHAR}.

End assorted.

(** ** foedus/storage/array/array_storage.cpp: the factory *)

Module array.

Inductive ErrorCode : Set :=
| kErrorCodeStrWrongMetadataType
| kErrorCodeStrArrayInvalidOption.

(** [ErrorStack]: [kRetOk] or [ERROR_STACK(code)]. *)
Inductive ErrorStack : Set :=
| kRetOk
| ERROR_STACK (code : ErrorCode).

(** The members of [storage::Metadata] (foedus/storage/metadata.hpp). *)
Record MetadataBase : Set := mkMetadataBase {
  id_ : N;
  type_ : N;
  name_ : list Byte.byte;
  root_snapshot_page_id_ : N
}.

(** [ArrayMetadata] adds the two members that the factory reads:
    [uint16_t payload_size_] and [ArrayOffset array_size_]. *)
Record ArrayMetadata : Set := mkArrayMetadata {
  base : MetadataBase;
  payload_size_ : N;
  array_size_ : N
}.

(** What a [const Metadata*] points to: the dynamic type is [ArrayMetadata]
    or another class derived from [Metadata]. *)
Inductive Metadata : Set :=
| IsArrayMetadata (m : ArrayMetadata)
| IsOtherMetadata (m : MetadataBase).

(** [dynamic_cast<const ArrayMetadata*>(metadata)], where [None] is
    [nullptr] on both sides. *)
Definition dynamic_cast_ArrayMetadata (metadata : option Metadata)
  : option ArrayMetadata :=
  match metadata with
  | Some (IsArrayMetadata m) => Some m
  | _ => None
  end.

(** [new ArrayStorage(engine, metadata, create)]: the object is identified
    by the arguments of its constructor. *)
Record ArrayStorage : Set := mkArrayStorage {
  metadata_ : ArrayMetadata;
  create_ : bool
}.

(** [ErrorStack ArrayStorageFactory::get_instance(Engine*, const Metadata*
    metadata, Storage** storage) const].  [storage] is the value of
    [*storage] before the call; the second component of the result is its
    value after the call. *)
Definition get_instance (metadata : option Metadata)
    (storage : option ArrayStorage) : ErrorStack * option ArrayStorage :=
  match dynamic_cast_ArrayMetadata metadata with
  | None => (ERROR_STACK kErrorCodeStrWrongMetadataType, storage)
  | Some casted =>
      if (payload_size_ casted =? 0)%N
      then (ERROR_STACK kErrorCodeStrArrayInvalidOption, storage)
      else if (array_size_ casted =? 0)%N
      then (ERROR_STACK kErrorCodeStrArrayInvalidOption, storage)
      else (kRetOk, Some (mkArrayStorage casted false))
  end.

Definition is_right_metadata (metadata : option Metadata) : bool :=
  match dynamic_cast_ArrayMetadata metadata with
  | Some _ => true
  | None => false
  end.

End array.

(** ** foedus/savepoint/savepoint.cpp *)

Module savepoint.

(** [std::vector<T>::resize(n, x)]: the first [n] elements are kept, and
    copies of [x] are appended when the vector is shorter than [n]. *)
Definition resize {T : Type} (v : list T) (n : nat) (x : T) : list T :=
  firstn n v ++ repeat x (n - List.length v).

(** The members of [Savepoint] that [populate_empty] writes: two epochs
    and one vector per property, indexed by logger. *)
Record Savepoint : Set := mkSavepoint {
  current_epoch_ : N;
  durable_epoch_ : N;
  oldest_log_files_ : list N;
  oldest_log_files_offset_begin_ : list N;
  current_log_files_ : list N;
  current_log_files_offset_durable_ : list N
}.

(** [void Savepoint::populate_empty(log::LoggerId logger_count)] *)
Definition populate_empty (self : Savepoint) (logger_count : nat)
  : Savepoint :=
  mkSavepoint 2 1
    (resize (oldest_log_files_ self) logger_count 0%N)
    (resize (oldest_log_files_offset_begin_ self) logger_count 0%N)
    (resize (current_log_files_ self) logger_count 0%N)
    (resize (current_log_files_offset_durable_ self) logger_count 0%N).

End savepoint.

(** * Definitions used to state the properties *)

Import thread storage.

(** The [w] bits of [d] that start at bit [lo]. *)
Definition field (lo w d : Z) : Z := Z.land (Z.shiftr d lo) (Z.ones w).

(** The mask that selects them. *)
Definition bitmask (lo w : Z) : Z := Z.shiftl (Z.ones w) lo.

(** The word that the layout table of the specification assigns to a choice
    of fields (bit 0 is the least significant bit): locked 63, inserting 62,
    splitting 61, deleted 60, has_foster_child 59, is_border 58,
    is_high_fence_supremum 57, insertion counter 51..56, split counter
    33..50, key count 16..31, layer 8..15. *)
Definition word_of_fields
    (locked inserting splitting deleted has_foster_child is_border
       is_high_fence_supremum : bool)
    (insert_counter split_counter key_count layer : Z) : Z :=
  Z.lor (Z.lor (Z.lor (Z.lor (Z.lor (Z.lor (Z.lor (Z.lor (Z.lor (Z.lor
    (Z.shiftl (Z.b2z locked) 63)
    (Z.shiftl (Z.b2z inserting) 62))
    (Z.shiftl (Z.b2z splitting) 61))
    (Z.shiftl (Z.b2z deleted) 60))
    (Z.shiftl (Z.b2z has_foster_child) 59))
    (Z.shiftl (Z.b2z is_border) 58))
    (Z.shiftl (Z.b2z is_high_fence_supremum) 57))
    (Z.shiftl insert_counter 51))
    (Z.shiftl split_counter 33))
    (Z.shiftl key_count 16))
    (Z.shiftl layer 8).

(** What an assignment of the [n] characters at [src] leaves in [r], when
    [self] is the object before it: the length is [min n MAXLEN] and within
    the capacity, that many characters of [data_] are those of [src], the
    rest of the array is as it was. *)
Definition assigned {CHAR : Type} (MAXLEN : N)
    (self r : assorted.FixedString CHAR) (src : list CHAR) (n : N) : Prop :=
  assorted.length r = N.min n MAXLEN /\
  (assorted.length r <= assorted.capacity MAXLEN r)%N /\
  firstn (N.to_nat (assorted.length r)) (assorted.data r)
  = firstn (N.to_nat (assorted.length r)) src /\
  skipn (N.to_nat (assorted.length r)) (assorted.data r)
  = skipn (N.to_nat (assorted.length r)) (assorted.data self) /\
  List.length (assorted.data r) = N.to_nat MAXLEN.

(** A string of [2^32 + 1] characters, as a null-terminated [const char*]. *)
Definition long_cstring : list ascii := repeat "a"%char (N.to_nat (2 ^ 32 + 1)).

(** The lexicographic order on sequences of unsigned bytes: a proper prefix
    is smaller, otherwise the first pair of bytes that differ decides. *)
Fixpoint lex_ltb (a b : list N) : bool :=
  match a, b with
  | _, [] => false
  | [], _ :: _ => true
  | x :: a', y :: b' => (x <? y)%N || ((x =? y)%N && lex_ltb a' b')
  end.

(** The word [v] with the locked bit set. *)
Definition locked_word (v : PageVersion) : PageVersion :=
  mkPageVersion (Z.lor (data_ v) kPageVersionLockedBit).

(** A sequence of accesses that is made of whole iterations of
    [lock_version] which did not take the lock: an iteration that loaded a
    locked word, one access, or an iteration that loaded an unlocked word
    and whose compare-and-swap found another word, two accesses. *)
Inductive failed_iterations : list Z -> Prop :=
| failed_nil : failed_iterations []
| failed_locked (ver : Z) (later : list Z) :
    is_locked (mkPageVersion ver) = true ->
    failed_iterations later ->
    failed_iterations (ver :: later)
| failed_exchange (ver current : Z) (later : list Z) :
    is_locked (mkPageVersion ver) = false ->
    current <> ver ->
    failed_iterations later ->
    failed_iterations (ver :: current :: later).

(** A critical section of a writer, as the comment of [lock_version]
    describes it: lock, set the inserting flag when [ins] and the splitting
    flag when [spl], unlock. *)
Definition critical_section (ins spl : bool) (v : PageVersion)
  : PageVersion :=
  let w := locked_word v in
  let w := if ins then set_inserting w else w in
  let w := if spl then set_splitting w else w in
  unlock_version w.

(** The fields of a version word, as its getters read them. *)
Record VersionFields : Set := mkVersionFields {
  f_locked : bool;
  f_inserting : bool;
  f_splitting : bool;
  f_deleted : bool;
  f_has_foster_child : bool;
  f_is_border : bool;
  f_is_high_fence_supremum : bool;
  f_insert_counter : Z;
  f_split_counter : Z;
  f_key_count : Z;
  f_layer : Z
}.

Definition fields_of (v : PageVersion) : VersionFields :=
  mkVersionFields (is_locked v) (is_inserting v) (is_splitting v)
    (is_deleted v) (has_foster_child v) (is_border v)
    (is_high_fence_supremum v) (get_insert_counter v) (get_split_counter v)
    (get_key_count v) (get_layer v).

(** * Properties *)

Lemma uint8_small x : 0 <= x < 2 ^ 8 -> uint8 x = x.
Proof. intros; unfold uint8; apply Z.mod_small; assumption. Qed.

Lemma uint16_small x : 0 <= x < 2 ^ 16 -> uint16 x = x.
Proof. intros; unfold uint16; apply Z.mod_small; assumption. Qed.

Lemma uint32_small x : 0 <= x < 2 ^ 32 -> uint32 x = x.
Proof. intros; unfold uint32; apply Z.mod_small; assumption. Qed.

Lemma uint64_small x : 0 <= x < 2 ^ 64 -> uint64 x = x.
Proof. intros; unfold uint64; apply Z.mod_small; assumption. Qed.

(** Bit-by-bit comparison of two integers, with the out-of-range bits that the
    case analysis leaves behind. *)
Ltac bitwise_eq :=
  Z.bitblast;
  repeat match goal with
         | |- context [Z.testbit ?a ?i] =>
             rewrite (Z.testbit_neg_r a i) by lia
         end;
  try reflexivity; try btauto.

Section ThreadId.

Variables g l : Z.
Hypothesis Hg : 0 <= g <= 255.
Hypothesis Hl : 0 <= l <= 255.

Lemma compose_thread_id_bits :
  compose_thread_id g l = Z.lor (Z.shiftl (g mod 2 ^ 8) 8) (l mod 2 ^ 8).
Proof.
  unfold compose_thread_id, uint16, uint8.
  Z.bitblast.
Qed.

Lemma decompose_numa_node_compose :
  decompose_numa_node (compose_thread_id g l) = g.
Proof.
  rewrite compose_thread_id_bits.
  unfold decompose_numa_node, uint16, uint8.
  change 0xFF with (Z.ones 8).
  rewrite <- (Z.mod_small g (2 ^ 8)) at 2 by lia.
  Z.bitblast.
Qed.

Lemma decompose_numa_local_ordinal_compose :
  decompose_numa_local_ordinal (compose_thread_id g l) = l.
Proof.
  rewrite compose_thread_id_bits.
  unfold decompose_numa_local_ordinal, uint16, uint8.
  change 0xFF with (Z.ones 8).
  rewrite <- (Z.mod_small l (2 ^ 8)) at 2 by lia.
  bitwise_eq.
Qed.

End ThreadId.

(** ** Bit fields of a word *)

Lemma field_range lo w d : 0 <= w -> 0 <= field lo w d < 2 ^ w.
Proof.
  intros Hw. unfold field. rewrite Z.land_ones by assumption.
  apply Z.mod_pos_bound. apply Z.pow_pos_nonneg; lia.
Qed.

Lemma testbit_high k n j : 0 <= n -> 0 <= k < 2 ^ n -> n <= j ->
  Z.testbit k j = false.
Proof.
  intros Hn Hk Hj. rewrite <- (Z.mod_small k (2 ^ n)) by assumption.
  apply Z.mod_pow2_bits_high. lia.
Qed.

Lemma testbit_b2z_shiftl (b : bool) n i : 0 <= n -> 0 <= i ->
  Z.testbit (Z.shiftl (Z.b2z b) n) i = b && (i =? n).
Proof.
  intros Hn Hi. rewrite Z.shiftl_spec by assumption.
  destruct (Z.eqb_spec i n) as [-> | Hne].
  - rewrite Z.sub_diag. destruct b; reflexivity.
  - destruct (Z.lt_ge_cases i n).
    + rewrite Z.testbit_neg_r by lia. destruct b; reflexivity.
    + rewrite (testbit_high (Z.b2z b) 1) by (destruct b; cbn; lia).
      destruct b; reflexivity.
Qed.

Lemma land_flag d n : 0 <= n ->
  Z.land d (Z.shiftl 1 n) = Z.shiftl (Z.b2z (Z.testbit d n)) n.
Proof.
  intros Hn. apply Z.bits_inj'. intros i Hi.
  rewrite Z.land_spec. change 1 with (Z.b2z true) at 1.
  rewrite !testbit_b2z_shiftl by assumption.
  destruct (Z.eqb_spec i n) as [-> | Hne]; btauto.
Qed.

Lemma to_bool_flag d n : 0 <= n ->
  to_bool (Z.land d (Z.shiftl 1 n)) = Z.testbit d n.
Proof.
  intros Hn. rewrite land_flag by assumption. unfold to_bool.
  destruct (Z.testbit d n); cbn [Z.b2z].
  - rewrite Z.shiftl_1_l.
    assert (0 < 2 ^ n) by (apply Z.pow_pos_nonneg; lia).
    destruct (Z.eqb_spec (2 ^ n) 0); [lia | reflexivity].
  - rewrite Z.shiftl_0_l. reflexivity.
Qed.

Lemma field_lor lo w a b : 0 <= lo -> 0 <= w ->
  field lo w (Z.lor a b) = Z.lor (field lo w a) (field lo w b).
Proof. intros. unfold field. bitwise_eq. Qed.

Lemma field_land_bitmask_in lo w lo' w' d :
  0 <= lo' <= lo -> 0 <= w -> lo + w <= lo' + w' ->
  field lo w (Z.land d (bitmask lo' w')) = field lo w d.
Proof. intros. unfold field, bitmask. bitwise_eq. Qed.

Lemma field_land_bitmask_out lo w lo' w' d :
  0 <= lo -> 0 <= lo' -> 0 <= w -> 0 <= w' ->
  lo + w <= lo' \/ lo' + w' <= lo ->
  field lo w (Z.land d (bitmask lo' w')) = 0.
Proof. intros. unfold field, bitmask. bitwise_eq. Qed.

Lemma land_bitmask lo w d : 0 <= lo -> 0 <= w ->
  Z.land d (bitmask lo w) = Z.shiftl (field lo w d) lo.
Proof. intros. unfold field, bitmask. bitwise_eq. Qed.

Lemma shiftr_land_bitmask lo w d : 0 <= lo -> 0 <= w ->
  Z.shiftr (Z.land d (bitmask lo w)) lo = field lo w d.
Proof. intros. unfold field, bitmask. bitwise_eq. Qed.

Lemma field_shiftl_same lo w k : 0 <= lo -> 0 <= w ->
  field lo w (Z.shiftl k lo) = k mod 2 ^ w.
Proof.
  intros. unfold field. rewrite <- (Z.land_ones k) by lia. bitwise_eq.
Qed.

Lemma field_shiftl_above lo w lo' k : 0 <= lo -> 0 <= w -> lo + w <= lo' ->
  field lo w (Z.shiftl k lo') = 0.
Proof. intros. unfold field. bitwise_eq. Qed.

Lemma field_shiftl_below lo w lo' w' k :
  0 <= lo' -> 0 <= w -> 0 <= w' -> lo' + w' <= lo -> 0 <= k < 2 ^ w' ->
  field lo w (Z.shiftl k lo') = 0.
Proof.
  intros. unfold field.
  rewrite <- (Z.mod_small k (2 ^ w')) by lia. bitwise_eq.
Qed.

Lemma field_small lo w d : 0 <= lo -> 0 <= w -> 0 <= d < 2 ^ lo ->
  field lo w d = 0.
Proof.
  intros. unfold field.
  rewrite <- (Z.mod_small d (2 ^ lo)) by lia. bitwise_eq.
Qed.

(** The constants of page.hpp as bit ranges. *)
Lemma kPageVersionInsertionCounterMask_bits :
  kPageVersionInsertionCounterMask = bitmask 51 6.
Proof. reflexivity. Qed.

Lemma kPageVersionSplitCounterMask_bits :
  kPageVersionSplitCounterMask = bitmask 33 18.
Proof. reflexivity. Qed.

Lemma kPageVersionKeyCountMask_bits : kPageVersionKeyCountMask = bitmask 16 16.
Proof. reflexivity. Qed.

Lemma kPageVersionLayerMask_bits : kPageVersionLayerMask = bitmask 8 8.
Proof. reflexivity. Qed.

Lemma kPageVersionUnlockMask_bits :
  kPageVersionUnlockMask =
  Z.lor (Z.lor (bitmask 58 2) (bitmask 16 16)) (bitmask 8 8).
Proof. reflexivity. Qed.

(** ** The getters of [PageVersion] as bit fields *)

Section Getters.

Variable v : PageVersion.

Lemma is_locked_bit : is_locked v = Z.testbit (data_ v) 63.
Proof. apply to_bool_flag; lia. Qed.

Lemma is_inserting_bit : is_inserting v = Z.testbit (data_ v) 62.
Proof. apply to_bool_flag; lia. Qed.

Lemma is_splitting_bit : is_splitting v = Z.testbit (data_ v) 61.
Proof. apply to_bool_flag; lia. Qed.

Lemma is_deleted_bit : is_deleted v = Z.testbit (data_ v) 60.
Proof. apply to_bool_flag; lia. Qed.

Lemma has_foster_child_bit : has_foster_child v = Z.testbit (data_ v) 59.
Proof. apply to_bool_flag; lia. Qed.

Lemma is_border_bit : is_border v = Z.testbit (data_ v) 58.
Proof. apply to_bool_flag; lia. Qed.

Lemma is_high_fence_supremum_bit :
  is_high_fence_supremum v = Z.testbit (data_ v) 57.
Proof. apply to_bool_flag; lia. Qed.

Lemma get_insert_counter_field :
  get_insert_counter v = field 51 6 (data_ v).
Proof.
  unfold get_insert_counter, kPageVersionInsertionCounterShifts.
  rewrite kPageVersionInsertionCounterMask_bits, shiftr_land_bitmask by lia.
  apply uint32_small. pose proof (field_range 51 6 (data_ v)). lia.
Qed.

Lemma get_split_counter_field :
  get_split_counter v = field 33 18 (data_ v).
Proof.
  unfold get_split_counter, kPageVersionSplitCounterShifts.
  rewrite kPageVersionSplitCounterMask_bits, shiftr_land_bitmask by lia.
  apply uint32_small. pose proof (field_range 33 18 (data_ v)). lia.
Qed.

Lemma get_key_count_field : get_key_count v = field 16 16 (data_ v).
Proof.
  unfold get_key_count, kPageVersionKeyCountShifts.
  rewrite kPageVersionKeyCountMask_bits, shiftr_land_bitmask by lia.
  apply uint16_small. pose proof (field_range 16 16 (data_ v)). lia.
Qed.

Lemma get_layer_field : get_layer v = field 8 8 (data_ v).
Proof.
  unfold get_layer, kPageVersionLayerShifts.
  rewrite kPageVersionLayerMask_bits, shiftr_land_bitmask by lia.
  apply uint8_small. pose proof (field_range 8 8 (data_ v)). lia.
Qed.

Lemma get_insert_counter_range : 0 <= get_insert_counter v < 64.
Proof. rewrite get_insert_counter_field. apply (field_range 51 6). lia. Qed.

Lemma get_split_counter_range : 0 <= get_split_counter v < 2 ^ 18.
Proof. rewrite get_split_counter_field. apply (field_range 33 18). lia. Qed.

Lemma get_key_count_range : 0 <= get_key_count v < 2 ^ 16.
Proof. rewrite get_key_count_field. apply (field_range 16 16). lia. Qed.

Lemma get_layer_range : 0 <= get_layer v < 2 ^ 8.
Proof. rewrite get_layer_field. apply (field_range 8 8). lia. Qed.

End Getters.

(** ** [unlock_version], field by field *)

Section Unlock.

Variable v : PageVersion.

(** The two counters as [unlock_version] composes them: the old field plus
    one when the flag is set, moved back to the field's position, with no
    mask applied to the sum. *)
Lemma unlock_insertion_counter_shape :
  unlock_insertion_counter (data_ v) =
  Z.shiftl (get_insert_counter v + Z.b2z (is_inserting v)) 51.
Proof.
  rewrite get_insert_counter_field, is_inserting_bit.
  unfold unlock_insertion_counter, kPageVersionInsertionCounterShifts,
    kPageVersionInsertingBit.
  rewrite to_bool_flag, kPageVersionInsertionCounterMask_bits,
    land_bitmask by lia.
  pose proof (field_range 51 6 (data_ v)).
  destruct (Z.testbit (data_ v) 62); cbn [Z.b2z].
  - rewrite !Z.shiftl_mul_pow2 by lia. rewrite uint64_small by lia. lia.
  - rewrite Z.add_0_r. reflexivity.
Qed.

Lemma unlock_split_counter_shape :
  unlock_split_counter (data_ v) =
  Z.shiftl (get_split_counter v + Z.b2z (is_splitting v)) 33.
Proof.
  rewrite get_split_counter_field, is_splitting_bit.
  unfold unlock_split_counter, kPageVersionSplitCounterShifts,
    kPageVersionSplittingBit.
  rewrite to_bool_flag, kPageVersionSplitCounterMask_bits,
    land_bitmask by lia.
  pose proof (field_range 33 18 (data_ v)).
  destruct (Z.testbit (data_ v) 61); cbn [Z.b2z].
  - rewrite !Z.shiftl_mul_pow2 by lia. rewrite uint64_small by lia. lia.
  - rewrite Z.add_0_r. reflexivity.
Qed.

Lemma unlock_version_data :
  data_ (unlock_version v) =
  Z.lor (Z.lor (Z.land (data_ v) kPageVersionUnlockMask)
               (Z.shiftl (get_insert_counter v + Z.b2z (is_inserting v)) 51))
        (Z.shiftl (get_split_counter v + Z.b2z (is_splitting v)) 33).
Proof.
  unfold unlock_version. cbn [data_].
  rewrite unlock_insertion_counter_shape, unlock_split_counter_shape.
  reflexivity.
Qed.

Local Abbreviation k := (get_insert_counter v + Z.b2z (is_inserting v)).
Local Abbreviation m := (get_split_counter v + Z.b2z (is_splitting v)).

Lemma unlock_insert_sum_range : 0 <= k < 2 ^ 7.
Proof.
  pose proof (get_insert_counter_range v).
  destruct (is_inserting v); cbn [Z.b2z]; lia.
Qed.

Lemma unlock_split_sum_range : 0 <= m < 2 ^ 19.
Proof.
  pose proof (get_split_counter_range v).
  destruct (is_splitting v); cbn [Z.b2z]; lia.
Qed.

Lemma unlock_version_testbit i :
  0 <= i ->
  Z.testbit (data_ (unlock_version v)) i =
  Z.testbit (data_ v) i && Z.testbit kPageVersionUnlockMask i
  || Z.testbit k (i - 51) || Z.testbit m (i - 33).
Proof.
  intros Hi. rewrite unlock_version_data.
  rewrite !Z.lor_spec, Z.land_spec, !Z.shiftl_spec by assumption.
  reflexivity.
Qed.

(** A bit at position 58 or above is taken from [base] alone: neither
    counter reaches it, even after a carry. *)
Lemma unlock_version_testbit_high i :
  58 <= i ->
  Z.testbit (data_ (unlock_version v)) i =
  Z.testbit (data_ v) i && Z.testbit kPageVersionUnlockMask i.
Proof.
  intros Hi. rewrite unlock_version_testbit by lia.
  rewrite (testbit_high k 7), (testbit_high m 19);
    auto using unlock_insert_sum_range, unlock_split_sum_range; try lia.
  rewrite !orb_false_r. reflexivity.
Qed.

Lemma unlock_version_is_locked : is_locked (unlock_version v) = false.
Proof.
  rewrite is_locked_bit, unlock_version_testbit_high by lia.
  apply andb_false_r.
Qed.

Lemma unlock_version_is_inserting : is_inserting (unlock_version v) = false.
Proof.
  rewrite is_inserting_bit, unlock_version_testbit_high by lia.
  apply andb_false_r.
Qed.

Lemma unlock_version_is_splitting : is_splitting (unlock_version v) = false.
Proof.
  rewrite is_splitting_bit, unlock_version_testbit_high by lia.
  apply andb_false_r.
Qed.

Lemma unlock_version_is_deleted : is_deleted (unlock_version v) = false.
Proof.
  rewrite is_deleted_bit, unlock_version_testbit_high by lia.
  apply andb_false_r.
Qed.

Lemma unlock_version_has_foster_child :
  has_foster_child (unlock_version v) = has_foster_child v.
Proof.
  rewrite !has_foster_child_bit, unlock_version_testbit_high by lia.
  apply andb_true_r.
Qed.

Lemma unlock_version_is_border :
  is_border (unlock_version v) = is_border v.
Proof.
  rewrite !is_border_bit, unlock_version_testbit_high by lia.
  apply andb_true_r.
Qed.

(** Bit 57 is not in [kPageVersionUnlockMask]; after [unlock_version] it
    holds the carry of the insertion counter and nothing of its old value. *)
Lemma unlock_version_is_high_fence_supremum :
  is_high_fence_supremum (unlock_version v) =
  is_inserting v && (get_insert_counter v =? 63).
Proof.
  rewrite is_high_fence_supremum_bit, unlock_version_testbit by lia.
  rewrite (testbit_high m 19) by (auto using unlock_split_sum_range; lia).
  change (Z.testbit kPageVersionUnlockMask 57) with false.
  rewrite andb_false_r, orb_false_r, orb_false_l.
  change (57 - 51) with 6.
  pose proof (get_insert_counter_range v) as R.
  destruct (is_inserting v); cbn [Z.b2z andb].
  - destruct (Z.eqb_spec (get_insert_counter v) 63) as [E | E].
    + rewrite E. reflexivity.
    + apply (testbit_high _ 6); lia.
  - apply (testbit_high _ 6); lia.
Qed.

Lemma field_unlock_mask lo w :
  (lo = 16 /\ w = 16) \/ (lo = 8 /\ w = 8) ->
  field lo w (Z.land (data_ v) kPageVersionUnlockMask) = field lo w (data_ v).
Proof.
  intros H. rewrite kPageVersionUnlockMask_bits, !Z.land_lor_distr_r.
  rewrite !field_lor by lia.
  destruct H as [[-> ->] | [-> ->]].
  - rewrite (field_land_bitmask_out _ _ 58 2),
      (field_land_bitmask_out _ _ 8 8),
      (field_land_bitmask_in _ _ 16 16) by lia.
    rewrite Z.lor_0_l, Z.lor_0_r. reflexivity.
  - rewrite (field_land_bitmask_out _ _ 58 2),
      (field_land_bitmask_out _ _ 16 16),
      (field_land_bitmask_in _ _ 8 8) by lia.
    rewrite Z.lor_0_l. reflexivity.
Qed.

Lemma field_unlock_mask_counters lo w :
  (lo = 51 /\ w = 6) \/ (lo = 33 /\ w = 18) ->
  field lo w (Z.land (data_ v) kPageVersionUnlockMask) = 0.
Proof.
  intros H. rewrite kPageVersionUnlockMask_bits, !Z.land_lor_distr_r.
  rewrite !field_lor by lia.
  destruct H as [[-> ->] | [-> ->]];
    rewrite (field_land_bitmask_out _ _ 58 2),
      (field_land_bitmask_out _ _ 16 16),
      (field_land_bitmask_out _ _ 8 8) by lia;
    reflexivity.
Qed.

Lemma unlock_version_get_key_count :
  get_key_count (unlock_version v) = get_key_count v.
Proof.
  rewrite !get_key_count_field, unlock_version_data, !field_lor by lia.
  rewrite field_unlock_mask by auto.
  rewrite !field_shiftl_above by lia.
  rewrite !Z.lor_0_r. reflexivity.
Qed.

Lemma unlock_version_get_layer :
  get_layer (unlock_version v) = get_layer v.
Proof.
  rewrite !get_layer_field, unlock_version_data, !field_lor by lia.
  rewrite field_unlock_mask by auto.
  rewrite !field_shiftl_above by lia.
  rewrite !Z.lor_0_r. reflexivity.
Qed.

(** The split counter is bumped within its field: nothing above it in the
    word reaches down, and the getter masks the carry away. *)
Lemma unlock_version_get_split_counter :
  get_split_counter (unlock_version v) =
  (get_split_counter v + Z.b2z (is_splitting v)) mod 2 ^ 18.
Proof.
  rewrite (get_split_counter_field (unlock_version v)).
  rewrite unlock_version_data, !field_lor by lia.
  rewrite field_unlock_mask_counters by auto.
  rewrite field_shiftl_above, field_shiftl_same by lia.
  reflexivity.
Qed.

(** The insertion counter receives its own bump and, in addition, the
    carry of the split counter, which [unlock_version] does not mask. *)
Lemma unlock_version_get_insert_counter :
  get_insert_counter (unlock_version v) =
  Z.lor ((get_insert_counter v + Z.b2z (is_inserting v)) mod 2 ^ 6)
        (Z.b2z (is_splitting v && (get_split_counter v =? 2 ^ 18 - 1))).
Proof.
  rewrite (get_insert_counter_field (unlock_version v)).
  rewrite unlock_version_data, !field_lor by lia.
  rewrite field_unlock_mask_counters by auto.
  rewrite field_shiftl_same by lia. rewrite Z.lor_0_l. f_equal.
  pose proof (get_split_counter_range v) as R.
  destruct (is_splitting v); cbn [Z.b2z andb].
  - destruct (Z.eqb_spec (get_split_counter v) (2 ^ 18 - 1)) as [E | E].
    + rewrite E. reflexivity.
    + apply (field_shiftl_below 51 6 33 18); lia.
  - apply (field_shiftl_below 51 6 33 18); lia.
Qed.

(** [ASSERT_ND((insertion_counter & split_counter) == 0)] fails exactly when
    the split counter carries into an insertion counter whose lowest bit is
    set.  That both flags are set does not make it fail. *)
Lemma unlock_version_assert_counters_spec :
  unlock_version_assert_counters v =
  negb (is_splitting v && (get_split_counter v =? 2 ^ 18 - 1)
        && Z.odd (get_insert_counter v + Z.b2z (is_inserting v))).
Proof.
  unfold unlock_version_assert_counters.
  rewrite unlock_insertion_counter_shape, unlock_split_counter_shape.
  pose proof (get_split_counter_range v) as R.
  assert (N : forall s, 0 <= s < 2 ^ 18 ->
              Z.land (Z.shiftl k 51) (Z.shiftl s 33) = 0).
  { intros s Hs. rewrite <- (Z.mod_small s (2 ^ 18)) by lia. bitwise_eq. }
  destruct (is_splitting v); cbn [Z.b2z andb].
  - destruct (Z.eqb_spec (get_split_counter v) (2 ^ 18 - 1)) as [E | E].
    + rewrite E. change (Z.shiftl (2 ^ 18 - 1 + 1) 33) with (Z.shiftl 1 51).
      rewrite land_flag, Z.shiftl_spec, Z.sub_diag, Z.bit0_odd by lia.
      cbn [andb]. destruct (Z.odd k); reflexivity.
    + rewrite N by lia. reflexivity.
  - rewrite N by lia. reflexivity.
Qed.

End Unlock.

Lemma lor_uint64 a b :
  0 <= a < 2 ^ 64 -> 0 <= b < 2 ^ 64 -> 0 <= Z.lor a b < 2 ^ 64.
Proof.
  intros Ha Hb.
  assert (E : Z.lor a b = Z.lor a b mod 2 ^ 64).
  { rewrite <- (Z.mod_small a (2 ^ 64)), <- (Z.mod_small b (2 ^ 64)) by lia.
    bitwise_eq. }
  rewrite E. apply Z.mod_pos_bound. lia.
Qed.

Lemma land_uint64 a b : 0 <= a < 2 ^ 64 -> 0 <= Z.land a b < 2 ^ 64.
Proof.
  intros Ha.
  assert (E : Z.land a b = Z.land a b mod 2 ^ 64).
  { rewrite <- (Z.mod_small a (2 ^ 64)) by lia. bitwise_eq. }
  rewrite E. apply Z.mod_pos_bound. lia.
Qed.

Lemma unlock_version_is_uint64 v : is_uint64 v -> is_uint64 (unlock_version v).
Proof.
  unfold is_uint64. intros Hv. rewrite unlock_version_data.
  pose proof (get_insert_counter_range v).
  pose proof (get_split_counter_range v).
  repeat apply lor_uint64.
  - apply land_uint64. assumption.
  - rewrite Z.shiftl_mul_pow2 by lia.
    destruct (is_inserting v); cbn [Z.b2z]; lia.
  - rewrite Z.shiftl_mul_pow2 by lia.
    destruct (is_splitting v); cbn [Z.b2z]; lia.
Qed.

(** ** The layout of the version word *)

Lemma b2z_range (b : bool) : 0 <= Z.b2z b < 2 ^ 1.
Proof. destruct b; cbn; lia. Qed.

Section Layout.

Variables locked inserting splitting deleted hfc border sup : bool.
Variables ic sc kc layer : Z.
Hypothesis Hic : 0 <= ic < 2 ^ 6.
Hypothesis Hsc : 0 <= sc < 2 ^ 18.
Hypothesis Hkc : 0 <= kc < 2 ^ 16.
Hypothesis Hlayer : 0 <= layer < 2 ^ 8.

Local Abbreviation w :=
  (mkPageVersion (word_of_fields locked inserting splitting deleted hfc
                    border sup ic sc kc layer)).

(** Every bit of a field that is read at a position outside the field. *)
Ltac outside_bits :=
  repeat match goal with
    | |- context [Z.testbit ?x ?j] =>
        first [ rewrite (Z.testbit_neg_r x j) by lia
              | rewrite (testbit_high x 6 j) by lia
              | rewrite (testbit_high x 18 j) by lia
              | rewrite (testbit_high x 16 j) by lia
              | rewrite (testbit_high x 8 j) by lia ]
    end.

Ltac flag_of_word :=
  cbn [data_]; unfold word_of_fields;
  rewrite !Z.lor_spec, !testbit_b2z_shiftl, !Z.shiftl_spec by lia;
  outside_bits; cbn [Z.eqb Pos.eqb];
  rewrite ?andb_false_r, ?andb_true_r, ?orb_false_r, ?orb_false_l;
  reflexivity.

Lemma word_of_fields_is_locked : is_locked w = locked.
Proof. rewrite is_locked_bit. flag_of_word. Qed.

Lemma word_of_fields_is_inserting : is_inserting w = inserting.
Proof. rewrite is_inserting_bit. flag_of_word. Qed.

Lemma word_of_fields_is_splitting : is_splitting w = splitting.
Proof. rewrite is_splitting_bit. flag_of_word. Qed.

Lemma word_of_fields_is_deleted : is_deleted w = deleted.
Proof. rewrite is_deleted_bit. flag_of_word. Qed.

Lemma word_of_fields_has_foster_child : has_foster_child w = hfc.
Proof. rewrite has_foster_child_bit. flag_of_word. Qed.

Lemma word_of_fields_is_border : is_border w = border.
Proof. rewrite is_border_bit. flag_of_word. Qed.

Lemma word_of_fields_is_high_fence_supremum :
  is_high_fence_supremum w = sup.
Proof. rewrite is_high_fence_supremum_bit. flag_of_word. Qed.

(** A field read from a word in which every other field lies entirely
    above or entirely below it. *)
Ltac other_fields :=
  repeat match goal with
    | |- context [field ?lo ?n (Z.shiftl (Z.b2z ?b) ?q)] =>
        rewrite (field_shiftl_above lo n q (Z.b2z b)) by lia
    | |- context [field ?lo ?n (Z.shiftl (Z.b2z ?b) ?q)] =>
        rewrite (field_shiftl_below lo n q 1 (Z.b2z b))
          by (try apply b2z_range; lia)
    | |- context [field ?lo ?n (Z.shiftl ?x ?lo)] =>
        rewrite (field_shiftl_same lo n x) by lia
    | |- context [field ?lo ?n (Z.shiftl ?x ?q)] =>
        first [ rewrite (field_shiftl_above lo n q x) by lia
              | rewrite (field_shiftl_below lo n q 6 x) by lia
              | rewrite (field_shiftl_below lo n q 18 x) by lia
              | rewrite (field_shiftl_below lo n q 16 x) by lia
              | rewrite (field_shiftl_below lo n q 8 x) by lia ]
    end.

Ltac field_of_word :=
  cbn [data_]; unfold word_of_fields;
  rewrite !field_lor by lia; other_fields;
  rewrite ?Z.lor_0_l, ?Z.lor_0_r;
  apply Z.mod_small; lia.

Lemma word_of_fields_get_insert_counter : get_insert_counter w = ic.
Proof. rewrite get_insert_counter_field. field_of_word. Qed.

Lemma word_of_fields_get_split_counter : get_split_counter w = sc.
Proof. rewrite get_split_counter_field. field_of_word. Qed.

Lemma word_of_fields_get_key_count : get_key_count w = kc.
Proof. rewrite get_key_count_field. field_of_word. Qed.

Lemma word_of_fields_get_layer : get_layer w = layer.
Proof. rewrite get_layer_field. field_of_word. Qed.

End Layout.

(** [initialize] builds the word of the layout in which the two flags of a
    critical section, the reserved bit, the counters and the key count are
    all zero. *)
Lemma initialize_word_of_fields locked hfc border sup layer :
  data_ (initialize locked hfc border sup layer) =
  word_of_fields locked false false false hfc border sup 0 0 0 (uint8 layer).
Proof.
  assert (R : 0 <= uint8 layer < 2 ^ 8)
    by (unfold uint8; apply Z.mod_pos_bound; lia).
  unfold initialize, word_of_fields, kPageVersionLayerShifts. cbn [data_].
  rewrite (uint64_small (uint8 layer)) by lia.
  rewrite uint64_small by (rewrite Z.shiftl_mul_pow2; lia).
  destruct locked, hfc, border, sup; reflexivity.
Qed.

(** ** [set_key_count] *)

Lemma field_ext lo w a b :
  0 <= lo -> 0 <= w ->
  (forall j, lo <= j < lo + w -> Z.testbit a j = Z.testbit b j) ->
  field lo w a = field lo w b.
Proof.
  intros Hlo Hw H. unfold field. apply Z.bits_inj'. intros i Hi.
  rewrite !Z.land_spec, !Z.shiftr_spec, !Z.testbit_ones_nonneg by lia.
  destruct (Z.ltb_spec i w).
  - rewrite H by lia. reflexivity.
  - rewrite !andb_false_r. reflexivity.
Qed.

Section SetKeyCount.

Variable v : PageVersion.
Variable key_count : Z.
Hypothesis Hv : is_uint64 v.

Lemma set_key_count_testbit_outside i :
  0 <= i -> ~ 16 <= i < 32 ->
  Z.testbit (data_ (set_key_count v key_count)) i = Z.testbit (data_ v) i.
Proof.
  intros Hi Hout.
  unfold set_key_count, not64, uint64, uint8, kPageVersionKeyCountShifts.
  cbn [data_]. rewrite kPageVersionKeyCountMask_bits. unfold bitmask.
  rewrite <- (Z.mod_small (data_ v) (2 ^ 64)) by exact Hv.
  Z.bitblast_core;
    repeat match goal with
      | |- context [Z.testbit ?a ?j] => rewrite (Z.testbit_neg_r a j) by lia
      end;
    try reflexivity; try btauto.
Qed.

Lemma set_key_count_field :
  field 16 16 (data_ (set_key_count v key_count)) = uint8 key_count.
Proof.
  assert (R : 0 <= uint8 key_count < 2 ^ 8)
    by (unfold uint8; apply Z.mod_pos_bound; lia).
  unfold set_key_count, not64, uint64, field, kPageVersionKeyCountShifts.
  cbn [data_]. rewrite kPageVersionKeyCountMask_bits. unfold bitmask.
  revert R. generalize (uint8 key_count). intros n R.
  rewrite <- (Z.mod_small n (2 ^ 8)) by exact R.
  bitwise_eq.
Qed.

Lemma set_key_count_get_key_count :
  get_key_count (set_key_count v key_count) = uint8 key_count.
Proof. rewrite get_key_count_field. apply set_key_count_field. Qed.

Lemma set_key_count_is_uint64 : is_uint64 (set_key_count v key_count).
Proof.
  unfold is_uint64, set_key_count. cbn [data_].
  apply lor_uint64.
  - apply land_uint64. exact Hv.
  - unfold uint64. apply Z.mod_pos_bound. lia.
Qed.

End SetKeyCount.

(** ** [stable_version] *)

Lemma stable_word_flags ver :
  (Z.land ver (Z.lor kPageVersionInsertingBit kPageVersionSplittingBit) =? 0)
  = negb (is_inserting (mkPageVersion ver))
    && negb (is_splitting (mkPageVersion ver)).
Proof.
  unfold is_inserting, is_splitting, to_bool. cbn [data_].
  rewrite Z.land_lor_distr_r, !negb_involutive.
  destruct (Z.eqb_spec (Z.land ver kPageVersionInsertingBit) 0) as [-> | A].
  - rewrite Z.lor_0_l. reflexivity.
  - cbn [andb]. apply Z.eqb_neq. intros E.
    apply Z.lor_eq_0_iff in E. tauto.
Qed.

Lemma stable_version_sound reads v :
  stable_version reads = Some v ->
  In (data_ v) reads /\ is_inserting v = false /\ is_splitting v = false.
Proof.
  induction reads as [| ver later IH]; cbn [stable_version]; intros H.
  - discriminate.
  - rewrite stable_word_flags in H.
    destruct (is_inserting (mkPageVersion ver)) eqn:I;
      destruct (is_splitting (mkPageVersion ver)) eqn:S; cbn in H;
      try (destruct (IH H) as (? & ? & ?); repeat split; auto using in_cons).
    injection H as <-. cbn [data_]. repeat split; auto using in_eq.
Qed.

Lemma stable_version_returns reads ver :
  In ver reads ->
  is_inserting (mkPageVersion ver) = false ->
  is_splitting (mkPageVersion ver) = false ->
  exists v, stable_version reads = Some v.
Proof.
  intros Hin I S. induction reads as [| r later IH]; cbn [stable_version].
  - destruct Hin.
  - destruct (Z.land r _ =? 0) eqn:E.
    + eexists. reflexivity.
    + destruct Hin as [-> | Hin]; [| exact (IH Hin)].
      rewrite stable_word_flags, I, S in E. discriminate.
Qed.

(** ** The claims about the page version word *)

(** C1.  [unlock_version] does not bump the insertion counter exactly when
    the inserting bit was set.  On the locked word [0xA007FFFE00000000]
    (splitting set, inserting clear, split counter at its maximum [2^18 - 1],
    insertion counter 0) the unmasked sum of the split counter carries into
    bit 51: the insertion counter goes from 0 to 1 although the inserting bit
    was clear.  The other parts of the claim hold on this word: the three
    flags are cleared and the split counter is bumped modulo its field. *)
Theorem unlock_version_split_carry_bumps_insert_counter :
  let v := mkPageVersion 0xA007FFFE00000000 in
  is_uint64 v /\ is_locked v = true /\
  is_inserting v = false /\ is_splitting v = true /\
  get_insert_counter v = 0 /\ get_split_counter v = 2 ^ 18 - 1 /\
  unlock_version_assert_counters v = true /\
  data_ (unlock_version v) = 0x0008000000000000 /\
  get_insert_counter (unlock_version v) = 1 /\
  get_split_counter (unlock_version v) = 0.
Proof.
  cbv zeta. unfold is_uint64. cbn [data_].
  split; [lia |]. repeat split; vm_compute; reflexivity.
Qed.

(** C2.  [unlock_version] does not preserve [is_high_fence_supremum]: bit 57
    is missing from [kPageVersionUnlockMask].  On the locked word
    [0x8200000000000000], whose flag is set, the stored word is 0 and the
    flag reads false. *)
Theorem unlock_version_drops_is_high_fence_supremum :
  let v := mkPageVersion 0x8200000000000000 in
  is_uint64 v /\ is_locked v = true /\
  is_inserting v = false /\ is_splitting v = false /\
  is_high_fence_supremum v = true /\
  data_ (unlock_version v) = 0 /\
  is_high_fence_supremum (unlock_version v) = false.
Proof.
  cbv zeta. unfold is_uint64. cbn [data_].
  split; [lia |]. repeat split; vm_compute; reflexivity.
Qed.

(** C3, as the specification states it, fails: on the locked word
    [0xE000000000000000], in which both flags are set, the assertion of
    [unlock_version] holds and both counters change. *)
Lemma unlock_version_bumps_both_counters :
  let v := mkPageVersion 0xE000000000000000 in
  is_uint64 v /\ is_locked v = true /\
  is_inserting v = true /\ is_splitting v = true /\
  unlock_version_assert_counters v = true /\
  get_insert_counter (unlock_version v) <> get_insert_counter v /\
  get_split_counter (unlock_version v) <> get_split_counter v.
Proof.
  cbv zeta. unfold is_uint64. cbn [data_].
  split; [lia |]. repeat split; vm_compute; congruence.
Qed.

(** C3, amended.  For every locked word whose split counter does not
    overflow in this call, [unlock_version] bumps each counter on its own
    flag: the insertion counter by 1 modulo 64 when inserting is set, the
    split counter by 1 when splitting is set.  The assertion on the two
    counters holds whatever the flags are, so it does not make them
    exclusive: with at most one flag set at most one counter changes, and
    with both flags set both counters change. *)
Theorem unlock_version_counters_independent (v : PageVersion) :
  is_locked v = true ->
  is_splitting v = false \/ get_split_counter v < 2 ^ 18 - 1 ->
  unlock_version_assert_counters v = true /\
  get_insert_counter (unlock_version v) =
    (get_insert_counter v + Z.b2z (is_inserting v)) mod 2 ^ 6 /\
  get_split_counter (unlock_version v) =
    get_split_counter v + Z.b2z (is_splitting v) /\
  (is_inserting v = false \/ is_splitting v = false ->
   get_insert_counter (unlock_version v) = get_insert_counter v \/
   get_split_counter (unlock_version v) = get_split_counter v) /\
  (is_inserting v = true -> is_splitting v = true ->
   get_insert_counter (unlock_version v) <> get_insert_counter v /\
   get_split_counter (unlock_version v) <> get_split_counter v).
Proof.
  intros _ Hno.
  pose proof (get_insert_counter_range v) as Ri.
  pose proof (get_split_counter_range v) as Rs.
  assert (C : is_splitting v && (get_split_counter v =? 2 ^ 18 - 1) = false).
  { destruct Hno as [-> | Hlt]; [reflexivity |].
    destruct (Z.eqb_spec (get_split_counter v) (2 ^ 18 - 1)); [lia |].
    apply andb_false_r. }
  assert (A : unlock_version_assert_counters v = true)
    by (rewrite unlock_version_assert_counters_spec, C; reflexivity).
  assert (I : get_insert_counter (unlock_version v) =
              (get_insert_counter v + Z.b2z (is_inserting v)) mod 2 ^ 6)
    by (rewrite unlock_version_get_insert_counter, C; apply Z.lor_0_r).
  assert (S : get_split_counter (unlock_version v) =
              get_split_counter v + Z.b2z (is_splitting v)).
  { rewrite unlock_version_get_split_counter. apply Z.mod_small.
    destruct Hno as [-> | Hlt]; cbn [Z.b2z]; [lia |].
    destruct (is_splitting v); cbn [Z.b2z]; lia. }
  split; [exact A |]. split; [exact I |]. split; [exact S |]. split.
  - intros [E | E].
    + left. rewrite I, E. cbn [Z.b2z]. rewrite Z.add_0_r.
      apply Z.mod_small. lia.
    + right. rewrite S, E. cbn [Z.b2z]. lia.
  - intros Ei Es. split.
    + rewrite I, Ei. cbn [Z.b2z]. intros E.
      destruct (Z.eq_dec (get_insert_counter v) 63) as [E63 | N63].
      * rewrite E63 in E. vm_compute in E. discriminate.
      * rewrite Z.mod_small in E by lia. lia.
    + rewrite S, Es. cbn [Z.b2z]. lia.
Qed.

Lemma unlock_version_counters_independent_witness :
  let v := mkPageVersion 0xE000000000000000 in
  unlock_version_assert_counters v = true /\
  get_insert_counter (unlock_version v) =
    (get_insert_counter v + Z.b2z (is_inserting v)) mod 2 ^ 6 /\
  get_split_counter (unlock_version v) =
    get_split_counter v + Z.b2z (is_splitting v) /\
  (is_inserting v = false \/ is_splitting v = false ->
   get_insert_counter (unlock_version v) = get_insert_counter v \/
   get_split_counter (unlock_version v) = get_split_counter v) /\
  (is_inserting v = true -> is_splitting v = true ->
   get_insert_counter (unlock_version v) <> get_insert_counter v /\
   get_split_counter (unlock_version v) <> get_split_counter v).
Proof.
  apply (unlock_version_counters_independent
           (mkPageVersion 0xE000000000000000)).
  - reflexivity.
  - right. vm_compute. reflexivity.
Defined.

(** C4.  The bump of a counter is not confined to the counter's field.  On
    the locked word [0xC1F8000000000000] (inserting set, insertion counter
    63) the counter reads 0 after [unlock_version], and the carry sets bit
    57, [is_high_fence_supremum], which was clear.  On the locked word
    [0xA007FFFE00000000] (splitting set, split counter [2^18 - 1]) the split
    counter reads 0 afterwards and the carry sets bit 51, the lowest bit of
    the insertion counter.  On [0xA00FFFFE00000000], where that bit is
    already set, the assertion of [unlock_version] on the two counters
    fails. *)
Theorem unlock_version_carry_leaves_counter_field :
  let v1 := mkPageVersion 0xC1F8000000000000 in
  let v2 := mkPageVersion 0xA007FFFE00000000 in
  let v3 := mkPageVersion 0xA00FFFFE00000000 in
  (is_uint64 v1 /\ is_locked v1 = true /\ is_inserting v1 = true /\
   get_insert_counter v1 = 63 /\ is_high_fence_supremum v1 = false /\
   get_insert_counter (unlock_version v1) = 0 /\
   is_high_fence_supremum (unlock_version v1) = true /\
   data_ (unlock_version v1) = Z.shiftl 1 57) /\
  (is_uint64 v2 /\ is_locked v2 = true /\ is_splitting v2 = true /\
   get_split_counter v2 = 2 ^ 18 - 1 /\
   get_split_counter (unlock_version v2) = 0 /\
   Z.testbit (data_ v2) 51 = false /\
   Z.testbit (data_ (unlock_version v2)) 51 = true /\
   data_ (unlock_version v2) = Z.shiftl 1 51) /\
  (is_uint64 v3 /\ is_locked v3 = true /\
   unlock_version_assert_counters v3 = false).
Proof.
  cbv zeta. unfold is_uint64. cbn [data_].
  repeat split; try lia; vm_compute; reflexivity.
Qed.

(** C5.  The getters read back what [initialize] was given, with both
    counters and the key count at 0, and they read back every field of a word
    that is built from fields according to the layout. *)
Theorem page_version_layout_roundtrip
    (locked inserting splitting deleted hfc border sup : bool)
    (ic sc kc layer : Z) :
  0 <= layer <= 255 ->
  0 <= ic < 2 ^ 6 -> 0 <= sc < 2 ^ 18 -> 0 <= kc < 2 ^ 16 ->
  (let v := initialize locked hfc border sup layer in
   is_locked v = locked /\ has_foster_child v = hfc /\
   is_border v = border /\ is_high_fence_supremum v = sup /\
   get_layer v = layer /\
   get_insert_counter v = 0 /\ get_split_counter v = 0 /\
   get_key_count v = 0 /\
   is_inserting v = false /\ is_splitting v = false /\
   is_deleted v = false) /\
  (let w := mkPageVersion
              (word_of_fields locked inserting splitting deleted hfc border
                 sup ic sc kc layer) in
   is_locked w = locked /\ is_inserting w = inserting /\
   is_splitting w = splitting /\ is_deleted w = deleted /\
   has_foster_child w = hfc /\ is_border w = border /\
   is_high_fence_supremum w = sup /\
   get_insert_counter w = ic /\ get_split_counter w = sc /\
   get_key_count w = kc /\ get_layer w = layer).
Proof.
  intros Hlayer Hic Hsc Hkc. split; cbv zeta.
  - assert (E : initialize locked hfc border sup layer =
                mkPageVersion
                  (word_of_fields locked false false false hfc border sup
                     0 0 0 layer)).
    { pose proof (initialize_word_of_fields locked hfc border sup layer) as D.
      rewrite uint8_small in D by lia.
      destruct (initialize locked hfc border sup layer) as [d].
      cbn [data_] in D. rewrite D. reflexivity. }
    rewrite E.
    rewrite word_of_fields_is_locked, word_of_fields_has_foster_child,
      word_of_fields_is_border, word_of_fields_is_high_fence_supremum,
      word_of_fields_is_inserting, word_of_fields_is_splitting,
      word_of_fields_is_deleted by lia.
    rewrite word_of_fields_get_layer, word_of_fields_get_insert_counter,
      word_of_fields_get_split_counter, word_of_fields_get_key_count by lia.
    repeat split; reflexivity.
  - rewrite word_of_fields_is_locked, word_of_fields_has_foster_child,
      word_of_fields_is_border, word_of_fields_is_high_fence_supremum,
      word_of_fields_is_inserting, word_of_fields_is_splitting,
      word_of_fields_is_deleted by lia.
    rewrite word_of_fields_get_layer, word_of_fields_get_insert_counter,
      word_of_fields_get_split_counter, word_of_fields_get_key_count by lia.
    repeat split; reflexivity.
Qed.

Lemma page_version_layout_roundtrip_witness :
  (let v := initialize true false true true 200 in
   is_locked v = true /\ has_foster_child v = false /\
   is_border v = true /\ is_high_fence_supremum v = true /\
   get_layer v = 200 /\
   get_insert_counter v = 0 /\ get_split_counter v = 0 /\
   get_key_count v = 0 /\
   is_inserting v = false /\ is_splitting v = false /\
   is_deleted v = false) /\
  (let w := mkPageVersion
              (word_of_fields true true false true false true
                 true 63 262143 65535 200) in
   is_locked w = true /\ is_inserting w = true /\
   is_splitting w = false /\ is_deleted w = true /\
   has_foster_child w = false /\ is_border w = true /\
   is_high_fence_supremum w = true /\
   get_insert_counter w = 63 /\ get_split_counter w = 262143 /\
   get_key_count w = 65535 /\ get_layer w = 200).
Proof.
  apply (page_version_layout_roundtrip true true false true false true true
           63 262143 65535 200); lia.
Defined.

(** C6.  A word that [stable_version] returns is one of the words that it
    read and has neither the inserting nor the splitting flag; and the loop
    returns as soon as the word it reads has neither flag. *)
Theorem stable_version_returns_stable (reads : list Z) :
  (forall v, stable_version reads = Some v ->
     In (data_ v) reads /\ is_inserting v = false /\ is_splitting v = false)
  /\
  (forall ver, In ver reads ->
     is_inserting (mkPageVersion ver) = false ->
     is_splitting (mkPageVersion ver) = false ->
     exists v, stable_version reads = Some v).
Proof.
  split.
  - intros v. apply stable_version_sound.
  - intros ver. apply stable_version_returns.
Qed.

Lemma stable_version_returns_stable_witness :
  let reads := [0xC000000000000000; 0xA000000000000000; 0x0008000000010000] in
  stable_version reads = Some (mkPageVersion 0x0008000000010000) /\
  is_inserting (mkPageVersion 0x0008000000010000) = false /\
  is_splitting (mkPageVersion 0x0008000000010000) = false.
Proof.
  cbv zeta.
  assert (E : stable_version
                [0xC000000000000000; 0xA000000000000000; 0x0008000000010000]
              = Some (mkPageVersion 0x0008000000010000))
    by (vm_compute; reflexivity).
  split; [exact E |].
  exact (proj2 (proj1 (stable_version_returns_stable _) _ E)).
Defined.

(** C10.  [set_key_count] installs its argument as converted to [uint8_t]:
    an argument in [0, 255] is read back by [get_key_count], no key count
    above 255 results, the closing assertion holds, and every bit outside
    bits 16..31 of the word, hence every other field, is unchanged. *)
Theorem set_key_count_installs_uint8 (v : PageVersion) (n : Z) :
  is_uint64 v -> is_locked v = true ->
  let v' := set_key_count v n in
  (0 <= n <= 255 -> get_key_count v' = n) /\
  get_key_count v' = uint8 n /\ get_key_count v' <= 255 /\
  set_key_count_assert v n = true /\
  is_uint64 v' /\
  (forall i, 0 <= i -> ~ 16 <= i < 32 ->
     Z.testbit (data_ v') i = Z.testbit (data_ v) i) /\
  is_locked v' = is_locked v /\ is_inserting v' = is_inserting v /\
  is_splitting v' = is_splitting v /\ is_deleted v' = is_deleted v /\
  has_foster_child v' = has_foster_child v /\ is_border v' = is_border v /\
  is_high_fence_supremum v' = is_high_fence_supremum v /\
  get_insert_counter v' = get_insert_counter v /\
  get_split_counter v' = get_split_counter v /\
  get_layer v' = get_layer v.
Proof.
  intros Hv _. cbv zeta.
  pose proof (set_key_count_get_key_count v n) as K.
  pose proof (set_key_count_testbit_outside v n Hv) as O.
  assert (R : 0 <= uint8 n < 2 ^ 8)
    by (unfold uint8; apply Z.mod_pos_bound; lia).
  split; [intros Hn; rewrite K; apply uint8_small; lia |].
  split; [exact K |].
  split; [rewrite K; lia |].
  split; [unfold set_key_count_assert; rewrite K; apply Z.eqb_refl |].
  split; [apply set_key_count_is_uint64; exact Hv |].
  split; [exact O |].
  rewrite !is_locked_bit, !is_inserting_bit, !is_splitting_bit,
    !is_deleted_bit, !has_foster_child_bit, !is_border_bit,
    !is_high_fence_supremum_bit.
  rewrite !get_insert_counter_field, !get_split_counter_field,
    !get_layer_field.
  repeat split; try (apply O; lia);
    apply field_ext; try lia; intros j Hj; apply O; lia.
Qed.

Lemma set_key_count_installs_uint8_witness :
  let v := mkPageVersion 0xC20800020003FF00 in
  let v' := set_key_count v 200 in
  get_key_count v' = 200 /\ data_ v' = 0xC208000200C8FF00.
Proof.
  cbv zeta. split.
  - refine (proj1 (set_key_count_installs_uint8
                     (mkPageVersion 0xC20800020003FF00) 200 _ _) _).
    + unfold is_uint64. cbn [data_]. lia.
    + reflexivity.
    + lia.
  - reflexivity.
Defined.

(** C7.  [ArrayStorageFactory::get_instance] rejects an [ArrayMetadata] with
    an empty payload or an empty array with [kErrorCodeStrArrayInvalidOption],
    rejects every other metadata, and a null pointer, with
    [kErrorCodeStrWrongMetadataType], and otherwise stores a new
    [ArrayStorage] built from the metadata and returns [kRetOk].  A call
    that fails leaves [*storage] as it was. *)
Theorem get_instance_validates_metadata
    (m : array.ArrayMetadata) (o : array.MetadataBase)
    (storage : option array.ArrayStorage) :
  (array.payload_size_ m = 0%N ->
   array.get_instance (Some (array.IsArrayMetadata m)) storage =
   (array.ERROR_STACK array.kErrorCodeStrArrayInvalidOption, storage)) /\
  (array.array_size_ m = 0%N ->
   array.get_instance (Some (array.IsArrayMetadata m)) storage =
   (array.ERROR_STACK array.kErrorCodeStrArrayInvalidOption, storage)) /\
  array.get_instance (Some (array.IsOtherMetadata o)) storage =
  (array.ERROR_STACK array.kErrorCodeStrWrongMetadataType, storage) /\
  array.get_instance None storage =
  (array.ERROR_STACK array.kErrorCodeStrWrongMetadataType, storage) /\
  ((0 < array.payload_size_ m)%N -> (0 < array.array_size_ m)%N ->
   array.get_instance (Some (array.IsArrayMetadata m)) storage =
   (array.kRetOk, Some (array.mkArrayStorage m false))).
Proof.
  unfold array.get_instance. cbn [array.dynamic_cast_ArrayMetadata].
  split; [| split; [| split; [| split]]].
  - intros ->. reflexivity.
  - intros ->. destruct (array.payload_size_ m =? 0)%N; reflexivity.
  - reflexivity.
  - reflexivity.
  - intros Hp Ha.
    destruct (N.eqb_spec (array.payload_size_ m) 0); [lia |].
    destruct (N.eqb_spec (array.array_size_ m) 0); [lia |].
    reflexivity.
Qed.

Lemma get_instance_validates_metadata_witness :
  let b := array.mkMetadataBase 1 1 [] 0 in
  array.get_instance
    (Some (array.IsArrayMetadata (array.mkArrayMetadata b 0 1024))) None =
  (array.ERROR_STACK array.kErrorCodeStrArrayInvalidOption, None) /\
  array.get_instance
    (Some (array.IsArrayMetadata (array.mkArrayMetadata b 16 0))) None =
  (array.ERROR_STACK array.kErrorCodeStrArrayInvalidOption, None) /\
  array.get_instance
    (Some (array.IsArrayMetadata (array.mkArrayMetadata b 16 1024))) None =
  (array.kRetOk,
   Some (array.mkArrayStorage (array.mkArrayMetadata b 16 1024) false)).
Proof.
  cbv zeta. split; [| split].
  - refine (proj1 (get_instance_validates_metadata _ (array.mkMetadataBase 1 1 [] 0) _) _).
    reflexivity.
  - refine (proj1 (proj2 (get_instance_validates_metadata _ (array.mkMetadataBase 1 1 [] 0) _)) _).
    reflexivity.
  - refine (proj2 (proj2 (proj2 (proj2
              (get_instance_validates_metadata _ (array.mkMetadataBase 1 1 [] 0) _)))) _ _);
      cbn; lia.
Defined.

(** C8.  Decomposing a composed thread id gives back the node and the local
    ordinal, for every pair of bytes; and [compose_thread_id 3 17] is
    [0x0311]. *)
Theorem thread_id_roundtrip (g l : Z) :
  0 <= g <= 255 -> 0 <= l <= 255 ->
  decompose_numa_node (compose_thread_id g l) = g /\
  decompose_numa_local_ordinal (compose_thread_id g l) = l /\
  compose_thread_id 3 17 = 0x0311.
Proof.
  intros Hg Hl. split; [| split].
  - apply decompose_numa_node_compose. exact Hg.
  - apply decompose_numa_local_ordinal_compose. exact Hl.
  - reflexivity.
Qed.

Lemma thread_id_roundtrip_witness :
  decompose_numa_node (compose_thread_id 3 17) = 3 /\
  decompose_numa_local_ordinal (compose_thread_id 3 17) = 17 /\
  compose_thread_id 3 17 = 0x0311.
Proof. apply (thread_id_roundtrip 3 17); lia. Defined.

(** ** The version word as a record of fields *)

(** Two words that agree on every bit from 8 to 63, except the bits for
    which [skip] holds, have the same fields, except those that contain such
    a bit. *)
Section SameFields.

Variables v v' : PageVersion.
Variable skip : Z -> bool.
Hypothesis agree : forall i, 8 <= i < 64 -> skip i = false ->
  Z.testbit (data_ v') i = Z.testbit (data_ v) i.

Lemma same_field (lo n : Z) :
  8 <= lo -> 0 <= n -> lo + n <= 64 ->
  (forall i, lo <= i < lo + n -> skip i = false) ->
  field lo n (data_ v') = field lo n (data_ v).
Proof.
  intros Hlo Hn Hhi Hs. apply field_ext; try lia.
  intros j Hj. apply agree; [lia | apply Hs; exact Hj].
Qed.

Lemma same_is_locked : skip 63 = false -> is_locked v' = is_locked v.
Proof. intros. rewrite !is_locked_bit. apply agree; [lia | assumption]. Qed.

Lemma same_is_inserting : skip 62 = false -> is_inserting v' = is_inserting v.
Proof. intros. rewrite !is_inserting_bit. apply agree; [lia | assumption]. Qed.

Lemma same_is_splitting : skip 61 = false -> is_splitting v' = is_splitting v.
Proof. intros. rewrite !is_splitting_bit. apply agree; [lia | assumption]. Qed.

Lemma same_is_deleted : skip 60 = false -> is_deleted v' = is_deleted v.
Proof. intros. rewrite !is_deleted_bit. apply agree; [lia | assumption]. Qed.

Lemma same_has_foster_child :
  skip 59 = false -> has_foster_child v' = has_foster_child v.
Proof.
  intros. rewrite !has_foster_child_bit. apply agree; [lia | assumption].
Qed.

Lemma same_is_border : skip 58 = false -> is_border v' = is_border v.
Proof. intros. rewrite !is_border_bit. apply agree; [lia | assumption]. Qed.

Lemma same_is_high_fence_supremum :
  skip 57 = false -> is_high_fence_supremum v' = is_high_fence_supremum v.
Proof.
  intros. rewrite !is_high_fence_supremum_bit. apply agree; [lia | assumption].
Qed.

Lemma same_get_insert_counter :
  (forall i, 51 <= i < 57 -> skip i = false) ->
  get_insert_counter v' = get_insert_counter v.
Proof.
  intros H. rewrite !get_insert_counter_field.
  apply same_field; try lia. intros i Hi. apply H. lia.
Qed.

Lemma same_get_split_counter :
  (forall i, 33 <= i < 51 -> skip i = false) ->
  get_split_counter v' = get_split_counter v.
Proof.
  intros H. rewrite !get_split_counter_field.
  apply same_field; try lia. intros i Hi. apply H. lia.
Qed.

Lemma same_get_key_count :
  (forall i, 16 <= i < 32 -> skip i = false) ->
  get_key_count v' = get_key_count v.
Proof.
  intros H. rewrite !get_key_count_field.
  apply same_field; try lia. intros i Hi. apply H. lia.
Qed.

Lemma same_get_layer :
  (forall i, 8 <= i < 16 -> skip i = false) ->
  get_layer v' = get_layer v.
Proof.
  intros H. rewrite !get_layer_field.
  apply same_field; try lia. intros i Hi. apply H. lia.
Qed.

End SameFields.

Lemma fields_eq (l i s d h b u l' i' s' d' h' b' u' : bool)
    (ic sc kc la ic' sc' kc' la' : Z) :
  l = l' -> i = i' -> s = s' -> d = d' -> h = h' -> b = b' -> u = u' ->
  ic = ic' -> sc = sc' -> kc = kc' -> la = la' ->
  mkVersionFields l i s d h b u ic sc kc la
  = mkVersionFields l' i' s' d' h' b' u' ic' sc' kc' la'.
Proof. intros; subst; reflexivity. Qed.

(** A getter that reads the same from two words which agree outside the
    bits selected by [skip]. *)
Ltac same_getter skip_bits :=
  match goal with
  | |- is_locked _ = is_locked _ =>
      apply same_is_locked with (skip := skip_bits)
  | |- is_inserting _ = is_inserting _ =>
      apply same_is_inserting with (skip := skip_bits)
  | |- is_splitting _ = is_splitting _ =>
      apply same_is_splitting with (skip := skip_bits)
  | |- is_deleted _ = is_deleted _ =>
      apply same_is_deleted with (skip := skip_bits)
  | |- has_foster_child _ = has_foster_child _ =>
      apply same_has_foster_child with (skip := skip_bits)
  | |- is_border _ = is_border _ =>
      apply same_is_border with (skip := skip_bits)
  | |- is_high_fence_supremum _ = is_high_fence_supremum _ =>
      apply same_is_high_fence_supremum with (skip := skip_bits)
  | |- get_insert_counter _ = get_insert_counter _ =>
      apply same_get_insert_counter with (skip := skip_bits)
  | |- get_split_counter _ = get_split_counter _ =>
      apply same_get_split_counter with (skip := skip_bits)
  | |- get_key_count _ = get_key_count _ =>
      apply same_get_key_count with (skip := skip_bits)
  | |- get_layer _ = get_layer _ =>
      apply same_get_layer with (skip := skip_bits)
  end.

Lemma lor_flag_testbit d p i :
  0 <= p -> 0 <= i ->
  Z.testbit (Z.lor d (Z.shiftl 1 p)) i = Z.testbit d i || (i =? p).
Proof.
  intros Hp Hi. rewrite Z.lor_spec. change 1 with (Z.b2z true).
  rewrite testbit_b2z_shiftl by assumption. reflexivity.
Qed.

Lemma lor_flag_agree d p i :
  0 <= p -> 0 <= i -> (i =? p) = false ->
  Z.testbit (Z.lor d (Z.shiftl 1 p)) i = Z.testbit d i.
Proof.
  intros Hp Hi E. rewrite lor_flag_testbit, E by assumption.
  apply orb_false_r.
Qed.

Lemma lor_flag_set d p :
  0 <= p -> Z.testbit (Z.lor d (Z.shiftl 1 p)) p = true.
Proof.
  intros Hp. rewrite lor_flag_testbit, Z.eqb_refl by assumption.
  apply orb_true_r.
Qed.

Lemma land_not64_flag_testbit d p i :
  0 <= p < 64 -> 0 <= i ->
  Z.testbit (Z.land d (not64 (Z.shiftl 1 p))) i
  = Z.testbit d i && negb (i =? p) && (i <? 64).
Proof.
  intros Hp Hi. unfold not64, uint64.
  rewrite Z.land_spec, Z.testbit_mod_pow2, Z.lnot_spec by lia.
  change 1 with (Z.b2z true). rewrite testbit_b2z_shiftl by lia.
  destruct (Z.testbit d i), (i =? p), (i <? 64); reflexivity.
Qed.

(** ** The mutators of the version word *)

(** X1.  [unlock_version], on every word: the three flags of a critical section
    and the reserved bit are cleared, [has_foster_child], [is_border], the
    key count and the layer are kept, and the split counter is bumped modulo
    [2^18] when the splitting flag was set. *)
Theorem unlock_version_clears_flags_keeps_fields (v : PageVersion) :
  is_locked (unlock_version v) = false /\
  is_inserting (unlock_version v) = false /\
  is_splitting (unlock_version v) = false /\
  is_deleted (unlock_version v) = false /\
  has_foster_child (unlock_version v) = has_foster_child v /\
  is_border (unlock_version v) = is_border v /\
  get_key_count (unlock_version v) = get_key_count v /\
  get_layer (unlock_version v) = get_layer v /\
  get_split_counter (unlock_version v)
  = (get_split_counter v + Z.b2z (is_splitting v)) mod 2 ^ 18.
Proof.
  repeat split.
  - apply unlock_version_is_locked.
  - apply unlock_version_is_inserting.
  - apply unlock_version_is_splitting.
  - apply unlock_version_is_deleted.
  - apply unlock_version_has_foster_child.
  - apply unlock_version_is_border.
  - apply unlock_version_get_key_count.
  - apply unlock_version_get_layer.
  - apply unlock_version_get_split_counter.
Qed.

Lemma set_inserting_fields (v : PageVersion) :
  fields_of (set_inserting v) =
  mkVersionFields (is_locked v) true (is_splitting v) (is_deleted v)
    (has_foster_child v) (is_border v) (is_high_fence_supremum v)
    (get_insert_counter v) (get_split_counter v) (get_key_count v)
    (get_layer v).
Proof.
  assert (A : forall i, 8 <= i < 64 -> (i =? 62) = false ->
            Z.testbit (data_ (set_inserting v)) i = Z.testbit (data_ v) i)
    by (intros; apply lor_flag_agree; lia).
  apply fields_eq.
  all: try (rewrite is_inserting_bit; apply lor_flag_set; lia).
  all: same_getter (fun i => i =? 62); try exact A.
  all: try reflexivity.
  all: intros; apply Z.eqb_neq; lia.
Qed.

Lemma set_splitting_fields (v : PageVersion) :
  fields_of (set_splitting v) =
  mkVersionFields (is_locked v) (is_inserting v) true (is_deleted v)
    (has_foster_child v) (is_border v) (is_high_fence_supremum v)
    (get_insert_counter v) (get_split_counter v) (get_key_count v)
    (get_layer v).
Proof.
  assert (A : forall i, 8 <= i < 64 -> (i =? 61) = false ->
            Z.testbit (data_ (set_splitting v)) i = Z.testbit (data_ v) i)
    by (intros; apply lor_flag_agree; lia).
  apply fields_eq.
  all: try (rewrite is_splitting_bit; apply lor_flag_set; lia).
  all: same_getter (fun i => i =? 61); try exact A.
  all: try reflexivity.
  all: intros; apply Z.eqb_neq; lia.
Qed.

(** X2.  [set_inserting] and [set_splitting] set their flag and change no
    other field; each is idempotent, and the two commute. *)
Theorem set_flag_fields (v : PageVersion) :
  fields_of (set_inserting v) =
  mkVersionFields (is_locked v) true (is_splitting v) (is_deleted v)
    (has_foster_child v) (is_border v) (is_high_fence_supremum v)
    (get_insert_counter v) (get_split_counter v) (get_key_count v)
    (get_layer v) /\
  fields_of (set_splitting v) =
  mkVersionFields (is_locked v) (is_inserting v) true (is_deleted v)
    (has_foster_child v) (is_border v) (is_high_fence_supremum v)
    (get_insert_counter v) (get_split_counter v) (get_key_count v)
    (get_layer v) /\
  set_inserting (set_inserting v) = set_inserting v /\
  set_splitting (set_splitting v) = set_splitting v /\
  set_inserting (set_splitting v) = set_splitting (set_inserting v).
Proof.
  split; [apply set_inserting_fields |].
  split; [apply set_splitting_fields |].
  split; [| split].
  - unfold set_inserting. cbn [data_]. f_equal.
    rewrite <- Z.lor_assoc, Z.lor_diag. reflexivity.
  - unfold set_splitting. cbn [data_]. f_equal.
    rewrite <- Z.lor_assoc, Z.lor_diag. reflexivity.
  - unfold set_inserting, set_splitting. cbn [data_]. f_equal.
    rewrite <- !Z.lor_assoc, (Z.lor_comm kPageVersionInsertingBit).
    reflexivity.
Qed.

(** X3.  [set_has_foster_child] makes [has_foster_child] read its argument and
    changes no other field. *)
Theorem set_has_foster_child_fields (v : PageVersion) (has : bool) :
  fields_of (set_has_foster_child v has) =
  mkVersionFields (is_locked v) (is_inserting v) (is_splitting v)
    (is_deleted v) has (is_border v) (is_high_fence_supremum v)
    (get_insert_counter v) (get_split_counter v) (get_key_count v)
    (get_layer v).
Proof.
  assert (A : forall i, 8 <= i < 64 -> (i =? 59) = false ->
            Z.testbit (data_ (set_has_foster_child v has)) i
            = Z.testbit (data_ v) i).
  { intros i Hi E. destruct has; cbn [set_has_foster_child data_].
    - apply lor_flag_agree; lia.
    - unfold kPageVersionHasFosterChildBit.
      rewrite land_not64_flag_testbit, E by lia.
      destruct (Z.ltb_spec i 64); [| lia].
      rewrite !andb_true_r. reflexivity. }
  apply fields_eq.
  5: { rewrite has_foster_child_bit.
       destruct has; cbn [set_has_foster_child data_].
       - apply lor_flag_set. lia.
       - unfold kPageVersionHasFosterChildBit.
         rewrite land_not64_flag_testbit, Z.eqb_refl by lia.
         rewrite andb_false_r. reflexivity. }
  all: same_getter (fun i => i =? 59); try exact A.
  all: try reflexivity.
  all: intros; apply Z.eqb_neq; lia.
Qed.

Lemma field_div_mod lo n d :
  0 <= lo -> 0 <= n -> field lo n d = (d / 2 ^ lo) mod 2 ^ n.
Proof.
  intros Hlo Hn. unfold field.
  rewrite Z.land_ones, Z.shiftr_div_pow2 by assumption. reflexivity.
Qed.

Section IncrementKeyCount.

Variable v : PageVersion.
Hypothesis Hv : is_uint64 v.

Lemma increment_key_count_data :
  data_ (increment_key_count v) = (data_ v + 2 ^ 16) mod 2 ^ 64.
Proof. reflexivity. Qed.

Lemma increment_key_count_get_key_count :
  get_key_count (increment_key_count v) = (get_key_count v + 1) mod 2 ^ 16.
Proof.
  rewrite !get_key_count_field, increment_key_count_data.
  rewrite !field_div_mod by lia.
  unfold is_uint64 in Hv. Z.div_mod_to_equations. lia.
Qed.

Lemma increment_key_count_is_uint64 : is_uint64 (increment_key_count v).
Proof.
  unfold is_uint64. rewrite increment_key_count_data.
  apply Z.mod_pos_bound. lia.
Qed.

Hypothesis Hkc : get_key_count v < 2 ^ 16 - 1.

Lemma increment_key_count_no_carry :
  data_ (increment_key_count v) = data_ v + 2 ^ 16 /\
  (data_ v + 2 ^ 16) mod 2 ^ 16 = data_ v mod 2 ^ 16 /\
  (data_ v + 2 ^ 16) / 2 ^ 32 = data_ v / 2 ^ 32.
Proof.
  rewrite increment_key_count_data.
  rewrite get_key_count_field, field_div_mod in Hkc by lia.
  unfold is_uint64 in Hv. Z.div_mod_to_equations. lia.
Qed.

Lemma increment_key_count_testbit_outside i :
  0 <= i -> ~ 16 <= i < 32 ->
  Z.testbit (data_ (increment_key_count v)) i = Z.testbit (data_ v) i.
Proof.
  intros Hi Hout. destruct increment_key_count_no_carry as (E & Elo & Ehi).
  rewrite E. destruct (Z.lt_ge_cases i 16) as [Hlo | Hhi].
  - rewrite <- (Z.mod_pow2_bits_low (data_ v + 2 ^ 16) 16 i) by lia.
    rewrite Elo. apply Z.mod_pow2_bits_low. lia.
  - replace i with (i - 32 + 32) by lia.
    rewrite <- !Z.div_pow2_bits by lia. rewrite Ehi. reflexivity.
Qed.

End IncrementKeyCount.

Lemma increment_key_count_fields_below (v : PageVersion) :
  is_uint64 v -> get_key_count v < 2 ^ 16 - 1 ->
  fields_of (increment_key_count v) =
  mkVersionFields (is_locked v) (is_inserting v) (is_splitting v)
    (is_deleted v) (has_foster_child v) (is_border v)
    (is_high_fence_supremum v) (get_insert_counter v) (get_split_counter v)
    (get_key_count v + 1) (get_layer v).
Proof.
  intros Hv Hkc. pose proof (get_key_count_range v) as R.
  assert (A : forall i, 8 <= i < 64 ->
              (16 <=? i) && (i <? 32) = false ->
              Z.testbit (data_ (increment_key_count v)) i
              = Z.testbit (data_ v) i).
  { intros i Hi E.
    apply (increment_key_count_testbit_outside v Hv Hkc); [lia |].
    intros [H1 H2]. apply Z.leb_le in H1. apply Z.ltb_lt in H2.
    rewrite H1, H2 in E. discriminate. }
  apply fields_eq.
  10: { rewrite increment_key_count_get_key_count by exact Hv.
        apply Z.mod_small. lia. }
  all: same_getter (fun i => (16 <=? i) && (i <? 32)); try exact A.
  all: try reflexivity.
  all: intros i Hi; destruct (Z.leb_spec 16 i), (Z.ltb_spec i 32);
    try reflexivity; lia.
Qed.

(** X4.  [increment_key_count] adds one to the key count, modulo [2^16];
    below the maximum it changes no other field. *)
Theorem increment_key_count_fields (v : PageVersion) :
  is_uint64 v ->
  is_uint64 (increment_key_count v) /\
  get_key_count (increment_key_count v) = (get_key_count v + 1) mod 2 ^ 16 /\
  (get_key_count v < 2 ^ 16 - 1 ->
   fields_of (increment_key_count v) =
   mkVersionFields (is_locked v) (is_inserting v) (is_splitting v)
     (is_deleted v) (has_foster_child v) (is_border v)
     (is_high_fence_supremum v) (get_insert_counter v) (get_split_counter v)
     (get_key_count v + 1) (get_layer v)).
Proof.
  intros Hv.
  split; [apply increment_key_count_is_uint64; exact Hv |].
  split; [apply increment_key_count_get_key_count; exact Hv |].
  apply increment_key_count_fields_below. exact Hv.
Qed.

Lemma increment_key_count_fields_witness :
  fields_of (increment_key_count (mkPageVersion 0xC20800020003FF00)) =
  mkVersionFields true true false false false false true 1 1 4 255.
Proof.
  refine (proj2 (proj2 (increment_key_count_fields
                          (mkPageVersion 0xC20800020003FF00) _)) _).
  - unfold is_uint64. cbn [data_]. lia.
  - vm_compute. reflexivity.
Defined.

Lemma fields_of_inv (a : PageVersion) l i s d h b u ic sc kc la :
  fields_of a = mkVersionFields l i s d h b u ic sc kc la ->
  is_locked a = l /\ is_inserting a = i /\ is_splitting a = s /\
  is_deleted a = d /\ has_foster_child a = h /\ is_border a = b /\
  is_high_fence_supremum a = u /\ get_insert_counter a = ic /\
  get_split_counter a = sc /\ get_key_count a = kc /\ get_layer a = la.
Proof.
  unfold fields_of. intros H. injection H. intros. repeat split; assumption.
Qed.

Lemma locked_word_fields (v : PageVersion) :
  fields_of (locked_word v) =
  mkVersionFields true (is_inserting v) (is_splitting v) (is_deleted v)
    (has_foster_child v) (is_border v) (is_high_fence_supremum v)
    (get_insert_counter v) (get_split_counter v) (get_key_count v)
    (get_layer v).
Proof.
  assert (A : forall i, 8 <= i < 64 -> (i =? 63) = false ->
            Z.testbit (data_ (locked_word v)) i = Z.testbit (data_ v) i)
    by (intros; apply lor_flag_agree; lia).
  apply fields_eq.
  1: { rewrite is_locked_bit. apply lor_flag_set. lia. }
  all: same_getter (fun i => i =? 63); try exact A.
  all: try reflexivity.
  all: intros; apply Z.eqb_neq; lia.
Qed.

Lemma flag_is_uint64 p : 0 <= p < 64 -> 0 <= Z.shiftl 1 p < 2 ^ 64.
Proof.
  intros Hp. rewrite Z.shiftl_1_l. split.
  - apply Z.pow_nonneg. lia.
  - apply Z.pow_lt_mono_r; lia.
Qed.

Lemma locked_word_is_uint64 v : is_uint64 v -> is_uint64 (locked_word v).
Proof. intros H. apply lor_uint64; [exact H | apply flag_is_uint64; lia]. Qed.

Lemma set_inserting_is_uint64 v : is_uint64 v -> is_uint64 (set_inserting v).
Proof. intros H. apply lor_uint64; [exact H | apply flag_is_uint64; lia]. Qed.

Lemma set_splitting_is_uint64 v : is_uint64 v -> is_uint64 (set_splitting v).
Proof. intros H. apply lor_uint64; [exact H | apply flag_is_uint64; lia]. Qed.

(** X5.  The writer of an insertion: lock, [set_inserting_and_increment_key_count],
    unlock.  On a word that is not splitting and whose key count is below
    its maximum, the cycle leaves an unlocked word with the insertion counter
    bumped modulo 64, the key count one higher, and the split counter, the
    layer, [has_foster_child] and [is_border] as before. *)
Theorem insert_cycle (v : PageVersion) :
  is_uint64 v -> is_splitting v = false -> get_key_count v < 2 ^ 16 - 1 ->
  let v' :=
    unlock_version (set_inserting_and_increment_key_count (locked_word v)) in
  is_locked v' = false /\ is_inserting v' = false /\
  is_splitting v' = false /\
  get_insert_counter v' = (get_insert_counter v + 1) mod 2 ^ 6 /\
  get_split_counter v' = get_split_counter v /\
  get_key_count v' = get_key_count v + 1 /\
  get_layer v' = get_layer v /\
  has_foster_child v' = has_foster_child v /\
  is_border v' = is_border v.
Proof.
  intros Hv Hs Hkc. cbv zeta.
  unfold set_inserting_and_increment_key_count.
  destruct (fields_of_inv _ _ _ _ _ _ _ _ _ _ _ _ (locked_word_fields v))
    as (_ & _ & S1 & _ & H1 & B1 & _ & I1 & C1 & K1 & L1).
  destruct (fields_of_inv _ _ _ _ _ _ _ _ _ _ _ _
              (set_inserting_fields (locked_word v)))
    as (_ & _ & S2 & _ & H2 & B2 & _ & I2 & C2 & K2 & L2).
  assert (U2 : is_uint64 (set_inserting (locked_word v)))
    by (apply set_inserting_is_uint64, locked_word_is_uint64; exact Hv).
  assert (Hkc2 : get_key_count (set_inserting (locked_word v)) < 2 ^ 16 - 1)
    by (rewrite K2, K1; exact Hkc).
  destruct (fields_of_inv _ _ _ _ _ _ _ _ _ _ _ _
              (increment_key_count_fields_below _ U2 Hkc2))
    as (_ & N3 & S3 & _ & H3 & B3 & _ & I3 & C3 & K3 & L3).
  assert (N2 : is_inserting (set_inserting (locked_word v)) = true)
    by (rewrite is_inserting_bit; apply lor_flag_set; lia).
  pose proof (get_split_counter_range v) as R.
  split; [apply unlock_version_is_locked |].
  split; [apply unlock_version_is_inserting |].
  split; [apply unlock_version_is_splitting |].
  split.
  { rewrite unlock_version_get_insert_counter.
    rewrite S3, S2, S1, Hs, I3, I2, I1, N3, N2. cbn [andb Z.b2z].
    apply Z.lor_0_r. }
  split.
  { rewrite unlock_version_get_split_counter.
    rewrite S3, S2, S1, Hs, C3, C2, C1. cbn [Z.b2z].
    rewrite Z.add_0_r. apply Z.mod_small. exact R. }
  split; [rewrite unlock_version_get_key_count, K3, K2, K1; reflexivity |].
  split; [rewrite unlock_version_get_layer, L3, L2, L1; reflexivity |].
  split; [rewrite unlock_version_has_foster_child, H3, H2, H1; reflexivity |].
  rewrite unlock_version_is_border, B3, B2, B1. reflexivity.
Qed.

Lemma insert_cycle_witness :
  let v := initialize false false true false 0 in
  let v' :=
    unlock_version (set_inserting_and_increment_key_count (locked_word v)) in
  is_locked v' = false /\ is_inserting v' = false /\
  is_splitting v' = false /\
  get_insert_counter v' = (get_insert_counter v + 1) mod 2 ^ 6 /\
  get_split_counter v' = get_split_counter v /\
  get_key_count v' = get_key_count v + 1 /\
  get_layer v' = get_layer v /\
  has_foster_child v' = has_foster_child v /\
  is_border v' = is_border v.
Proof.
  apply (insert_cycle (initialize false false true false 0)).
  - unfold is_uint64. vm_compute. split; [discriminate | reflexivity].
  - reflexivity.
  - vm_compute. reflexivity.
Defined.

Lemma set_flags_fields (ins spl : bool) (w : PageVersion) :
  fields_of (let w := if ins then set_inserting w else w in
             if spl then set_splitting w else w) =
  mkVersionFields (is_locked w) (is_inserting w || ins)
    (is_splitting w || spl) (is_deleted w) (has_foster_child w)
    (is_border w) (is_high_fence_supremum w) (get_insert_counter w)
    (get_split_counter w) (get_key_count w) (get_layer w).
Proof.
  cbv zeta.
  assert (I : fields_of (if ins then set_inserting w else w) =
              mkVersionFields (is_locked w) (is_inserting w || ins)
                (is_splitting w) (is_deleted w) (has_foster_child w)
                (is_border w) (is_high_fence_supremum w)
                (get_insert_counter w) (get_split_counter w)
                (get_key_count w) (get_layer w)).
  { destruct ins.
    - rewrite set_inserting_fields, orb_true_r. reflexivity.
    - rewrite orb_false_r. reflexivity. }
  destruct (fields_of_inv _ _ _ _ _ _ _ _ _ _ _ _ I)
    as (L & N & S & D & H & B & U & IC & SC & KC & LA).
  destruct spl.
  - rewrite set_splitting_fields.
    rewrite L, N, D, H, B, U, IC, SC, KC, LA, orb_true_r. reflexivity.
  - rewrite I, orb_false_r. reflexivity.
Qed.

(** X6.  A critical section on a word that is neither inserting nor splitting
    bumps exactly the counters whose flag the writer set, the insertion
    counter modulo 64, and leaves an unlocked word with the other fields as
    before; with no flag set both counters are as before.  The split counter
    must not be at its maximum when it is bumped. *)
Theorem critical_section_counters (ins spl : bool) (v : PageVersion) :
  is_inserting v = false -> is_splitting v = false ->
  spl = false \/ get_split_counter v < 2 ^ 18 - 1 ->
  let v' := critical_section ins spl v in
  is_locked v' = false /\ is_inserting v' = false /\
  is_splitting v' = false /\
  get_insert_counter v' = (get_insert_counter v + Z.b2z ins) mod 2 ^ 6 /\
  get_split_counter v' = get_split_counter v + Z.b2z spl /\
  get_key_count v' = get_key_count v /\
  get_layer v' = get_layer v /\
  has_foster_child v' = has_foster_child v /\
  is_border v' = is_border v.
Proof.
  intros Hi Hs Hno. cbv zeta. unfold critical_section.
  destruct (fields_of_inv _ _ _ _ _ _ _ _ _ _ _ _ (locked_word_fields v))
    as (_ & N1 & S1 & _ & H1 & B1 & _ & I1 & C1 & K1 & L1).
  pose proof (set_flags_fields ins spl (locked_word v)) as F.
  cbv zeta in F. rewrite N1, S1, H1, B1, I1, C1, K1, L1, Hi, Hs in F.
  cbn [orb] in F.
  destruct (fields_of_inv _ _ _ _ _ _ _ _ _ _ _ _ F)
    as (_ & N & S & _ & H & B & _ & I & C & K & L).
  pose proof (get_split_counter_range v) as R.
  split; [apply unlock_version_is_locked |].
  split; [apply unlock_version_is_inserting |].
  split; [apply unlock_version_is_splitting |].
  split.
  { rewrite unlock_version_get_insert_counter, N, S, I, C.
    replace (spl && (get_split_counter v =? 2 ^ 18 - 1)) with false.
    - apply Z.lor_0_r.
    - destruct Hno as [-> | Hlt]; [reflexivity |].
      destruct (Z.eqb_spec (get_split_counter v) (2 ^ 18 - 1)); [lia |].
      rewrite andb_false_r. reflexivity. }
  split.
  { rewrite unlock_version_get_split_counter, S, C.
    apply Z.mod_small.
    destruct Hno as [-> | Hlt]; [cbn [Z.b2z]; lia |].
    destruct spl; cbn [Z.b2z]; lia. }
  split; [rewrite unlock_version_get_key_count; exact K |].
  split; [rewrite unlock_version_get_layer; exact L |].
  split; [rewrite unlock_version_has_foster_child; exact H |].
  rewrite unlock_version_is_border. exact B.
Qed.

Lemma critical_section_counters_witness :
  let v := mkPageVersion 0x0408000200010000 in
  let v' := critical_section false true v in
  is_locked v' = false /\ is_inserting v' = false /\
  is_splitting v' = false /\
  get_insert_counter v' = (get_insert_counter v + 0) mod 2 ^ 6 /\
  get_split_counter v' = get_split_counter v + 1 /\
  get_key_count v' = get_key_count v /\
  get_layer v' = get_layer v /\
  has_foster_child v' = has_foster_child v /\
  is_border v' = is_border v.
Proof.
  apply (critical_section_counters false true
           (mkPageVersion 0x0408000200010000)).
  - reflexivity.
  - reflexivity.
  - right. vm_compute. reflexivity.
Defined.

(** ** [lock_version] and [stable_version] over the observed words *)

Lemma lock_version_skips (before : list Z) :
  failed_iterations before ->
  forall rest, lock_version (before ++ rest) = lock_version rest.
Proof.
  induction 1 as [| ver later L _ IH | ver current later U Hne _ IH];
    intros rest.
  - reflexivity.
  - cbn [app lock_version]. unfold is_locked in L. cbn [data_] in L.
    rewrite L. apply IH.
  - cbn [app lock_version]. unfold is_locked in U. cbn [data_] in U.
    rewrite U. destruct (Z.eqb_spec current ver); [contradiction |].
    apply IH.
Qed.

(** Every sequence of accesses is a run of failed iterations, followed by
    the iteration that takes the lock, or by nothing, or by a load that the
    sequence ends after. *)
Lemma lock_version_cases :
  forall (n : nat) (accesses : list Z), (List.length accesses <= n)%nat ->
  match lock_version accesses with
  | Some v =>
      exists before ver after,
        accesses = before ++ ver :: ver :: after /\
        failed_iterations before /\
        is_locked (mkPageVersion ver) = false /\
        v = locked_word (mkPageVersion ver)
  | None =>
      failed_iterations accesses \/
      exists before ver,
        accesses = before ++ [ver] /\ failed_iterations before /\
        is_locked (mkPageVersion ver) = false
  end.
Proof.
  induction n as [| n IH]; intros accesses Hn.
  - destruct accesses; [| cbn in Hn; lia]. left. constructor.
  - destruct accesses as [| ver later]; [left; constructor |].
    cbn [lock_version]. cbn [List.length] in Hn.
    destruct (to_bool (Z.land ver kPageVersionLockedBit)) eqn:L.
    + specialize (IH later ltac:(lia)).
      destruct (lock_version later) as [v |].
      * destruct IH as (b & x & a & -> & F & U & E).
        exists (ver :: b), x, a. repeat split; try assumption.
        constructor; assumption.
      * destruct IH as [F | (b & x & -> & F & U)].
        -- left. constructor; assumption.
        -- right. exists (ver :: b), x. repeat split; try assumption.
           constructor; assumption.
    + destruct later as [| current later'].
      * right. exists [], ver. repeat split; [constructor | exact L].
      * cbn [List.length] in Hn.
        destruct (Z.eqb_spec current ver) as [-> | Hne].
        -- exists [], ver, later'. repeat split; [constructor | exact L].
        -- specialize (IH later' ltac:(lia)).
           destruct (lock_version later') as [v |].
           ++ destruct IH as (b & x & a & -> & F & U & E).
              exists (ver :: current :: b), x, a.
              repeat split; try assumption.
              apply failed_exchange; assumption.
           ++ destruct IH as [F | (b & x & -> & F & U)].
              ** left. apply failed_exchange; assumption.
              ** right. exists (ver :: current :: b), x.
                 repeat split; try assumption.
                 apply failed_exchange; assumption.
Qed.

Lemma lock_version_spins (accesses : list Z) :
  Forall (fun ver => is_locked (mkPageVersion ver) = true) accesses ->
  lock_version accesses = None.
Proof.
  induction 1 as [| ver later L _ IH]; [reflexivity |].
  cbn [lock_version]. unfold is_locked in L. cbn [data_] in L.
  rewrite L. exact IH.
Qed.

(** X7.  [lock_version] returns exactly when, after a run of iterations that
    failed (the load saw a locked word, or the compare-and-swap saw another
    word than the load), an iteration loads an unlocked word and its own
    compare-and-swap finds that same word; what it stores is that word with
    the locked bit set and every other field as it was.  It is still
    spinning at the end of the accesses exactly when they are a run of
    failed iterations, possibly followed by one load of an unlocked word; in
    particular while every word it sees is locked. *)
Theorem lock_version_acquires (accesses : list Z) :
  (forall v, lock_version accesses = Some v <->
     exists before ver after,
       accesses = before ++ ver :: ver :: after /\
       failed_iterations before /\
       is_locked (mkPageVersion ver) = false /\
       v = locked_word (mkPageVersion ver)) /\
  (lock_version accesses = None <->
     failed_iterations accesses \/
     exists before ver,
       accesses = before ++ [ver] /\ failed_iterations before /\
       is_locked (mkPageVersion ver) = false) /\
  (forall ver,
     fields_of (locked_word (mkPageVersion ver)) =
     mkVersionFields true (is_inserting (mkPageVersion ver))
       (is_splitting (mkPageVersion ver)) (is_deleted (mkPageVersion ver))
       (has_foster_child (mkPageVersion ver))
       (is_border (mkPageVersion ver))
       (is_high_fence_supremum (mkPageVersion ver))
       (get_insert_counter (mkPageVersion ver))
       (get_split_counter (mkPageVersion ver))
       (get_key_count (mkPageVersion ver))
       (get_layer (mkPageVersion ver))) /\
  (Forall (fun ver => is_locked (mkPageVersion ver) = true) accesses ->
   lock_version accesses = None).
Proof.
  pose proof (lock_version_cases _ accesses (le_n _)) as C.
  assert (S : forall before ver after,
            failed_iterations before ->
            is_locked (mkPageVersion ver) = false ->
            lock_version (before ++ ver :: ver :: after)
            = Some (locked_word (mkPageVersion ver))).
  { intros before ver after F U. rewrite lock_version_skips by exact F.
    cbn [lock_version]. unfold is_locked in U. cbn [data_] in U.
    rewrite U, Z.eqb_refl. reflexivity. }
  split; [| split; [| split]].
  - intros v. split.
    + intros H. rewrite H in C. exact C.
    + intros (b & ver & a & -> & F & U & ->). apply S; assumption.
  - split.
    + intros H. rewrite H in C. exact C.
    + intros [F | (b & ver & -> & F & U)].
      * rewrite <- (app_nil_r accesses). rewrite lock_version_skips by exact F.
        reflexivity.
      * rewrite lock_version_skips by exact F. cbn [lock_version].
        unfold is_locked in U. cbn [data_] in U. rewrite U. reflexivity.
  - intros ver. apply locked_word_fields.
  - apply lock_version_spins.
Qed.

Lemma lock_version_acquires_witness :
  let held := 0x8000000000010000 in
  let free := 0x0008000000010000 in
  lock_version [held; held; free; held; free; free]
  = Some (locked_word (mkPageVersion free)) /\
  lock_version [free; held; held; free] = None.
Proof.
  cbv zeta. split.
  - apply (proj2 (proj1 (lock_version_acquires
                           [0x8000000000010000; 0x8000000000010000;
                            0x0008000000010000; 0x8000000000010000;
                            0x0008000000010000; 0x0008000000010000]) _)).
    exists [0x8000000000010000; 0x8000000000010000;
            0x0008000000010000; 0x8000000000010000],
           0x0008000000010000, [].
    split; [reflexivity |]. split; [| split; reflexivity].
    apply failed_locked; [reflexivity |].
    apply failed_locked; [reflexivity |].
    apply failed_exchange; [reflexivity | discriminate | constructor].
  - apply (proj2 (proj1 (proj2 (lock_version_acquires
                                  [0x0008000000010000; 0x8000000000010000;
                                   0x8000000000010000; 0x0008000000010000])))).
    right. exists [0x0008000000010000; 0x8000000000010000;
                   0x8000000000010000], 0x0008000000010000.
    split; [reflexivity |]. split; [| reflexivity].
    apply failed_exchange; [reflexivity | discriminate |].
    apply failed_locked; [reflexivity | constructor].
Defined.

(** X8.  The word that [stable_version] returns is the first word it read that
    has neither the inserting nor the splitting flag; it spins to the end of
    the sequence exactly when every word it read has one of them. *)
Theorem stable_version_first_stable (reads : list Z) :
  match stable_version reads with
  | Some v =>
      exists before after,
        reads = before ++ data_ v :: after /\
        Forall (fun ver => is_inserting (mkPageVersion ver)
                           || is_splitting (mkPageVersion ver) = true) before /\
        is_inserting v = false /\ is_splitting v = false
  | None =>
      Forall (fun ver => is_inserting (mkPageVersion ver)
                         || is_splitting (mkPageVersion ver) = true) reads
  end.
Proof.
  induction reads as [| ver later IH]; cbn [stable_version].
  - constructor.
  - rewrite stable_word_flags.
    destruct (is_inserting (mkPageVersion ver)) eqn:I;
      destruct (is_splitting (mkPageVersion ver)) eqn:S; cbn [negb andb].
    4: { exists [], later. cbn [data_ app]. repeat split; auto. }
    all: destruct (stable_version later) as [v |];
      [ destruct IH as (b & a & -> & F & Hi & Hs);
        exists (ver :: b), a; repeat split; auto;
        constructor; [rewrite I, S; reflexivity | exact F]
      | constructor; [rewrite I, S; reflexivity | exact IH] ].
Qed.

(** ** Thread ids *)

Lemma compose_thread_id_sum g l :
  0 <= g <= 255 -> 0 <= l <= 255 -> compose_thread_id g l = 256 * g + l.
Proof.
  intros Hg Hl. rewrite compose_thread_id_bits.
  rewrite !Z.mod_small by lia.
  rewrite Z.or_to_plus.
  - rewrite Z.shiftl_mul_pow2 by lia. lia.
  - rewrite <- (Z.mod_small l (2 ^ 8)) by lia. bitwise_eq.
Qed.

(** X9.  Composing the two parts of a thread id gives the id back, for every
    16-bit id, and the parts are within the maxima of their types. *)
Theorem compose_decompose_thread_id (global_id : Z) :
  0 <= global_id <= kMaxThreadId ->
  compose_thread_id (decompose_numa_node global_id)
    (decompose_numa_local_ordinal global_id) = global_id /\
  0 <= decompose_numa_node global_id <= kMaxThreadGroupId /\
  0 <= decompose_numa_local_ordinal global_id <= kMaxThreadLocalOrdinal.
Proof.
  unfold kMaxThreadId, kMaxThreadGroupId, kMaxThreadLocalOrdinal.
  intros H.
  assert (N : decompose_numa_node global_id = global_id / 2 ^ 8).
  { unfold decompose_numa_node. rewrite uint16_small by lia.
    change 0xFF with (Z.ones 8).
    rewrite Z.land_ones, Z.shiftr_div_pow2 by lia.
    unfold uint8. Z.div_mod_to_equations. lia. }
  assert (L : decompose_numa_local_ordinal global_id = global_id mod 2 ^ 8).
  { unfold decompose_numa_local_ordinal. rewrite uint16_small by lia.
    change 0xFF with (Z.ones 8). rewrite Z.land_ones by lia.
    unfold uint8. Z.div_mod_to_equations. lia. }
  rewrite N, L.
  assert (0 <= global_id / 2 ^ 8 <= 255 /\ 0 <= global_id mod 2 ^ 8 <= 255)
    as [Rn Rl] by (Z.div_mod_to_equations; lia).
  split; [| split; assumption].
  rewrite compose_thread_id_sum by assumption.
  Z.div_mod_to_equations. lia.
Qed.

Lemma compose_decompose_thread_id_witness :
  compose_thread_id (decompose_numa_node 0x0311)
    (decompose_numa_local_ordinal 0x0311) = 0x0311.
Proof.
  refine (proj1 (compose_decompose_thread_id 0x0311 _)).
  unfold kMaxThreadId. lia.
Defined.

(** X10.  Thread ids are ordered by node first and by local ordinal within a node,
    as the comment of [ThreadId] says, so that distinct pairs have distinct
    ids, and no id exceeds [kMaxThreadId]. *)
Theorem compose_thread_id_order (g l g' l' : Z) :
  0 <= g <= 255 -> 0 <= l <= 255 -> 0 <= g' <= 255 -> 0 <= l' <= 255 ->
  0 <= compose_thread_id g l <= kMaxThreadId /\
  (compose_thread_id g l < compose_thread_id g' l'
   <-> g < g' \/ (g = g' /\ l < l')) /\
  (compose_thread_id g l = compose_thread_id g' l' <-> g = g' /\ l = l').
Proof.
  intros Hg Hl Hg' Hl'. unfold kMaxThreadId.
  rewrite !compose_thread_id_sum by assumption. lia.
Qed.

Lemma compose_thread_id_order_witness :
  compose_thread_id 0 255 < compose_thread_id 1 0.
Proof.
  apply (proj1 (proj2 (compose_thread_id_order 0 255 1 0
                         ltac:(lia) ltac:(lia) ltac:(lia) ltac:(lia)))).
  left. lia.
Defined.

(** ** The page header *)

(** X11.  [init_volatile] and [init_snapshot] store the page type so that
    [get_page_type] reads back each enumerator, whose values are pairwise
    distinct; they leave a version word that reads unlocked with every flag
    clear and every counter 0, a zero checksum and zero statistics; and they
    differ in the [snapshot_] flag only. *)
Theorem init_page_header (h : PageHeader) (page_id storage_id : Z)
    (t : PageType) (root : bool) :
  let hv := init_volatile h page_id storage_id (PageType_value t) root in
  let hs := init_snapshot h page_id storage_id (PageType_value t) root in
  get_page_type hv = PageType_value t /\
  get_page_type hs = PageType_value t /\
  (forall t', PageType_value t' = PageType_value t -> t' = t) /\
  fields_of (page_version_ hv) =
  mkVersionFields false false false false false false false 0 0 0 0 /\
  snapshot_ hv = false /\ snapshot_ hs = true /\
  root_ hv = root /\ checksum_ hv = 0 /\ stat_latest_modifier_ hv = 0 /\
  hs = mkPageHeader (page_id_ hv) (storage_id_ hv) (checksum_ hv)
         (page_type_ hv) true (root_ hv) (stat_latest_modifier_ hv)
         (stat_latest_modify_epoch_ hv) (page_version_ hv).
Proof.
  cbv zeta. unfold init_volatile, init_snapshot, get_page_type.
  cbn [page_type_ page_version_ snapshot_ root_ checksum_
       stat_latest_modifier_ page_id_ storage_id_ stat_latest_modify_epoch_].
  assert (V : uint8 (PageType_value t) = PageType_value t)
    by (destruct t; reflexivity).
  rewrite V. repeat split.
  intros t' E. destruct t, t'; try reflexivity; discriminate E.
Qed.

Lemma init_page_header_witness :
  get_page_type
    (init_snapshot (mkPageHeader 9 9 9 9 false false 9 9 (mkPageVersion 9))
       5 7 (PageType_value kHashDataPageType) true) = 8.
Proof.
  exact (proj1 (proj2
           (init_page_header
              (mkPageHeader 9 9 9 9 false false 9 9 (mkPageVersion 9))
              5 7 kHashDataPageType true))).
Defined.

(** X12.  [VolatilePageInitializer::initialize] does not depend on what the page
    held before: two pages of the same size are initialized to the same
    page.  With [kDummyPageInitializer] every byte of the array is 0 and the
    header is the one [init_volatile] makes for storage 0, the unknown page
    type and a root page. *)
Theorem initialize_page_forgets_content (self : VolatilePageInitializer)
    (p q : Page) (page_id : Z) :
  List.length (page_data_ p) = List.length (page_data_ q) ->
  VolatilePageInitializer_initialize self p page_id
  = VolatilePageInitializer_initialize self q page_id /\
  page_data_ (VolatilePageInitializer_initialize kDummyPageInitializer
                p page_id)
  = repeat 0 (List.length (page_data_ p)) /\
  get_header (VolatilePageInitializer_initialize kDummyPageInitializer
                p page_id)
  = init_volatile (header_ p) page_id 0 (PageType_value kUnknownPageType)
      true.
Proof.
  intros E. unfold VolatilePageInitializer_initialize, memset_page_zero.
  cbn [page_data_ get_header header_]. rewrite E.
  repeat split.
Qed.

Lemma initialize_page_forgets_content_witness :
  let init :=
    mkVolatilePageInitializer 7 (PageType_value kArrayPageType) false
      (fun page => mkPage (header_ page) (1 :: tl (page_data_ page))) in
  let h := mkPageHeader 9 9 9 9 true true 9 9 (mkPageVersion 9) in
  VolatilePageInitializer_initialize init (mkPage h [1; 2; 3]) 5
  = VolatilePageInitializer_initialize init (mkPage h [4; 5; 6]) 5.
Proof.
  refine (proj1 (initialize_page_forgets_content _ _ _ _ _)).
  reflexivity.
Defined.

(** ** The array storage factory, continued *)

(** X13.  [is_right_metadata] is true exactly for the metadata that
    [get_instance] does not reject as of the wrong type; a call that returns
    an error leaves [*storage] as it was, and a successful call stores an
    [ArrayStorage] of the given metadata that is not newly created. *)
Theorem is_right_metadata_get_instance
    (metadata : option array.Metadata)
    (storage : option array.ArrayStorage) :
  (array.is_right_metadata metadata = false <->
   fst (array.get_instance metadata storage)
   = array.ERROR_STACK array.kErrorCodeStrWrongMetadataType) /\
  (fst (array.get_instance metadata storage) <> array.kRetOk ->
   snd (array.get_instance metadata storage) = storage) /\
  (fst (array.get_instance metadata storage) = array.kRetOk ->
   exists m, metadata = Some (array.IsArrayMetadata m) /\
     array.payload_size_ m <> 0%N /\ array.array_size_ m <> 0%N /\
     snd (array.get_instance metadata storage)
     = Some (array.mkArrayStorage m false)).
Proof.
  unfold array.is_right_metadata, array.get_instance.
  destruct metadata as [[m | o] |]; cbn [array.dynamic_cast_ArrayMetadata].
  - destruct (N.eqb_spec (array.payload_size_ m) 0) as [Zp | Np];
      [| destruct (N.eqb_spec (array.array_size_ m) 0) as [Za | Na]];
      cbn [fst snd].
    + split; [split; intros H; discriminate H |].
      split; [reflexivity | intros H; discriminate H].
    + split; [split; intros H; discriminate H |].
      split; [reflexivity | intros H; discriminate H].
    + split; [split; intros H; discriminate H |].
      split; [intros H; exfalso; apply H; reflexivity |].
      intros _. exists m. repeat split; assumption.
  - cbn [fst snd]. split; [split; reflexivity |].
    split; [reflexivity | intros H; discriminate H].
  - cbn [fst snd]. split; [split; reflexivity |].
    split; [reflexivity | intros H; discriminate H].
Qed.

Lemma is_right_metadata_get_instance_witness :
  let m := array.mkArrayMetadata (array.mkMetadataBase 1 1 [] 0) 16 1024 in
  exists m', Some (array.IsArrayMetadata m) = Some (array.IsArrayMetadata m')
    /\ array.payload_size_ m' <> 0%N /\ array.array_size_ m' <> 0%N /\
    snd (array.get_instance (Some (array.IsArrayMetadata m)) None)
    = Some (array.mkArrayStorage m' false).
Proof.
  cbv zeta.
  refine (proj2 (proj2 (is_right_metadata_get_instance _ _)) _).
  reflexivity.
Defined.
(** ** [FixedString] *)

Import assorted.

Section Memcpy.

Context {CHAR : Type}.

Lemma memcpy_prefix (n : nat) : forall dst src : list CHAR,
  (n <= List.length src)%nat -> firstn n (memcpy dst src n) = firstn n src.
Proof.
  unfold memcpy.
  induction n as [| n IH]; intros dst src Hn; [reflexivity |].
  destruct src as [| c src]; cbn in Hn; [lia |].
  cbn [firstn app]. f_equal.
  destruct dst as [| d dst]; cbn [skipn].
  - pose proof (IH [] src) as E. rewrite skipn_nil in E. apply E. lia.
  - apply IH. lia.
Qed.

Lemma memcpy_suffix (n : nat) : forall dst src : list CHAR,
  (n <= List.length src)%nat -> skipn n (memcpy dst src n) = skipn n dst.
Proof.
  unfold memcpy.
  induction n as [| n IH]; intros dst src Hn; [reflexivity |].
  destruct src as [| c src]; cbn in Hn; [lia |].
  cbn [firstn app]. cbn [skipn].
  destruct dst as [| d dst].
  - pose proof (IH [] src) as E. rewrite skipn_nil in E. apply E. lia.
  - apply IH. lia.
Qed.

Lemma memcpy_length (n : nat) (dst src : list CHAR) :
  (n <= List.length src)%nat -> (n <= List.length dst)%nat ->
  List.length (memcpy dst src n) = List.length dst.
Proof.
  intros Hs Hd. unfold memcpy.
  rewrite length_app, length_firstn, length_skipn. lia.
Qed.

End Memcpy.

Section FixedStringAssign.

Context {CHAR : Type}.
Variable MAXLEN : N.
Hypothesis MAXLEN_uint : (MAXLEN < 2 ^ 32)%N.

(** The object that is assigned to, or the memory that a constructor is
    given: its array has [MAXLEN] elements, its length is arbitrary. *)
Variable self : FixedString CHAR.
Hypothesis self_array : List.length (data_ self) = N.to_nat MAXLEN.

Lemma truncation_is_min (n : N) :
  uint32N (if gtb n MAXLEN then MAXLEN else n) = N.min n MAXLEN.
Proof.
  unfold gtb, uint32N.
  destruct (N.ltb_spec MAXLEN n); rewrite N.mod_small; lia.
Qed.

Lemma truncation_le_capacity (n : N) :
  (uint32N (if gtb n MAXLEN then MAXLEN else n) <= MAXLEN)%N.
Proof. rewrite truncation_is_min. lia. Qed.

Lemma assigned_memcpy (src : list CHAR) (n : N) :
  (N.min n MAXLEN <= N.of_nat (List.length src))%N ->
  let len := uint32N (if gtb n MAXLEN then MAXLEN else n) in
  assigned MAXLEN self
    (mkFixedString len (memcpy (data_ self) src (N.to_nat len))) src n.
Proof.
  intros Hsrc. cbv zeta. rewrite truncation_is_min.
  unfold assigned, length, capacity, data. cbn [length_ data_].
  assert (Hs : (N.to_nat (N.min n MAXLEN) <= List.length src)%nat) by lia.
  assert (Hd : (N.to_nat (N.min n MAXLEN) <= List.length (data_ self))%nat)
    by lia.
  split; [reflexivity |]. split; [lia |].
  split; [apply memcpy_prefix; exact Hs |].
  split; [apply memcpy_suffix; exact Hs |].
  rewrite memcpy_length by assumption. exact self_array.
Qed.

Lemma assign_assigned (MAXLEN2 : N) (other : FixedString CHAR) :
  well_formed MAXLEN2 other ->
  assigned MAXLEN self (assign MAXLEN self other)
    (data other) (length other).
Proof.
  intros [Harr Hlen]. apply assigned_memcpy.
  unfold data, length. lia.
Qed.

Lemma assign_string_assigned (s : list CHAR) :
  assigned MAXLEN self (assign_string MAXLEN self s)
    s (N.of_nat (List.length s)).
Proof. apply assigned_memcpy. lia. Qed.

Lemma assign_ptr_assigned (s : list CHAR) (len : N) :
  (len < 2 ^ 32)%N -> (len <= N.of_nat (List.length s))%N ->
  assigned MAXLEN self (assign_ptr MAXLEN self s len) s len.
Proof.
  intros Hlen Hmem. unfold assign_ptr.
  replace (uint32N len) with len by (unfold uint32N; rewrite N.mod_small; lia).
  apply assigned_memcpy. lia.
Qed.

Lemma strlen_small (s : list CHAR) :
  (N.of_nat (List.length s) < 2 ^ 32)%N ->
  strlen s = N.of_nat (List.length s).
Proof. intros H. unfold strlen, uint32N. apply N.mod_small. exact H. Qed.

Lemma FixedString_cstr_assigned (s : list CHAR) :
  (N.of_nat (List.length s) < 2 ^ 32)%N ->
  assigned MAXLEN self (FixedString_cstr MAXLEN self s)
    s (N.of_nat (List.length s)).
Proof.
  intros H. unfold FixedString_cstr. rewrite strlen_small by exact H.
  apply assign_ptr_assigned; [exact H | lia].
Qed.

Lemma assign_ptr_length_le (s : list CHAR) (len : N) :
  (length (assign_ptr MAXLEN self s len) <= MAXLEN)%N.
Proof. apply truncation_le_capacity. Qed.

Lemma assign_ptr_length (s : list CHAR) (len : N) :
  length (assign_ptr MAXLEN self s len) = N.min (uint32N len) MAXLEN.
Proof. apply truncation_is_min. Qed.

End FixedStringAssign.

Lemma strlen_repeat {CHAR : Type} (c : CHAR) (n : N) :
  strlen (repeat c (N.to_nat n)) = (n mod 2 ^ 32)%N.
Proof. unfold strlen, uint32N. rewrite repeat_length, N2Nat.id. reflexivity. Qed.

(** C9, as stated, fails for the constructor from a null-terminated string:
    [strlen] returns a [uint32_t], so a string of [2^32 + 1] characters gives
    a [FixedString<8>] of length 1, not of length [min (2^32 + 1) 8 = 8]. *)
Lemma FixedString_cstr_length_modulo :
  let mem := mkFixedString 0%N (repeat " "%char 8) in
  N.of_nat (List.length long_cstring) = (2 ^ 32 + 1)%N /\
  length (FixedString_cstr 8 mem long_cstring) = 1%N /\
  N.min (N.of_nat (List.length long_cstring)) 8 = 8%N /\
  length (FixedString_cstr 8 mem long_cstring)
  <> N.min (N.of_nat (List.length long_cstring)) (capacity 8 mem).
Proof.
  cbv zeta.
  assert (L : N.of_nat (List.length long_cstring) = (2 ^ 32 + 1)%N)
    by (unfold long_cstring; rewrite repeat_length; apply N2Nat.id).
  assert (E : length (FixedString_cstr 8
                        (mkFixedString 0%N (repeat " "%char 8)) long_cstring)
              = 1%N).
  { unfold FixedString_cstr. rewrite assign_ptr_length by reflexivity.
    unfold long_cstring. rewrite strlen_repeat. reflexivity. }
  split; [exact L |]. split; [exact E |].
  unfold capacity. rewrite E, L. split; [reflexivity | discriminate].
Qed.

(** A copy between two objects of the same capacity copies the whole array
    of the source; [assign] copies the characters of the content only. *)
Example FixedString_copy_same_capacity :
  let self := mkFixedString 0%N ["."; "."; "."; "."]%char in
  let other := mkFixedString 2%N ["a"; "b"; "x"; "y"]%char in
  data (FixedString_copy 4 4 self other) = ["a"; "b"; "x"; "y"]%char /\
  data (op_assign 4 4 self other) = ["a"; "b"; "x"; "y"]%char /\
  data (assign 4 self other) = ["a"; "b"; "."; "."]%char /\
  data (FixedString_copy 4 8 self other) = ["a"; "b"; "."; "."]%char.
Proof. repeat split. Qed.

(** C9, amended.  The length of a [FixedString] never exceeds its capacity,
    whatever the length of the input.  Every constructor and every [assign]
    overload that the class declares sets the length to [min n MAXLEN] and
    copies exactly that many characters, where [n] is the length of the
    input, provided that [n] is below [2^32]: the class documents that
    limit, [assign(str, len)] takes its length as a [uint32_t], and the
    constructor from a null-terminated string takes [strlen] as a
    [uint32_t].  The constructor and [operator=] from a [FixedString] are
    templates, selected for a source of another capacity; a source of the
    same capacity is copied member by member, which keeps its length and
    copies its whole array. *)
Theorem FixedString_length_within_capacity {CHAR : Type}
    (MAXLEN MAXLEN2 : N) (self other : FixedString CHAR)
    (s : list CHAR) (len : N) :
  (MAXLEN < 2 ^ 32)%N ->
  List.length (data_ self) = N.to_nat MAXLEN ->
  well_formed MAXLEN2 other ->
  (length (FixedString_default self) = 0%N /\ length (clear self) = 0%N /\
   (length (assign_ptr MAXLEN self s len) <= capacity MAXLEN self)%N /\
   (length (FixedString_ptr MAXLEN self s len) <= capacity MAXLEN self)%N /\
   (length (FixedString_cstr MAXLEN self s) <= capacity MAXLEN self)%N) /\
  (assigned MAXLEN self (assign MAXLEN self other)
     (data other) (length other) /\
   (MAXLEN2 <> MAXLEN ->
    assigned MAXLEN self (FixedString_copy MAXLEN MAXLEN2 self other)
      (data other) (length other) /\
    assigned MAXLEN self (op_assign MAXLEN MAXLEN2 self other)
      (data other) (length other)) /\
   (MAXLEN2 = MAXLEN ->
    FixedString_copy MAXLEN MAXLEN2 self other = other /\
    op_assign MAXLEN MAXLEN2 self other = other /\
    length other = N.min (length other) MAXLEN /\
    well_formed MAXLEN other) /\
   (length (FixedString_copy MAXLEN MAXLEN2 self other)
    <= capacity MAXLEN self)%N /\
   (length (op_assign MAXLEN MAXLEN2 self other)
    <= capacity MAXLEN self)%N) /\
  (assigned MAXLEN self (assign_string MAXLEN self s)
     s (N.of_nat (List.length s)) /\
   assigned MAXLEN self (FixedString_string MAXLEN self s)
     s (N.of_nat (List.length s)) /\
   assigned MAXLEN self (op_assign_string MAXLEN self s)
     s (N.of_nat (List.length s))) /\
  ((len < 2 ^ 32)%N -> (len <= N.of_nat (List.length s))%N ->
   assigned MAXLEN self (assign_ptr MAXLEN self s len) s len /\
   assigned MAXLEN self (FixedString_ptr MAXLEN self s len) s len) /\
  ((N.of_nat (List.length s) < 2 ^ 32)%N ->
   assigned MAXLEN self (FixedString_cstr MAXLEN self s)
     s (N.of_nat (List.length s))).
Proof.
  intros Hmax Harr Hother.
  assert (A : assigned MAXLEN self (assign MAXLEN self other)
                (data other) (length other))
    by (eapply assign_assigned; eassumption).
  split; [| split; [| split; [| split]]].
  - split; [reflexivity |]. split; [reflexivity |].
    unfold capacity, FixedString_ptr, FixedString_cstr.
    repeat split; apply assign_ptr_length_le; assumption.
  - split; [exact A |]. unfold FixedString_copy, op_assign.
    destruct (N.eqb_spec MAXLEN2 MAXLEN) as [E | NE].
    + destruct Hother as [Oarr Olen]. rewrite E in Oarr, Olen.
      split; [intros H; contradiction |].
      split.
      * intros _. destruct other as [l d]. unfold length, well_formed.
        cbn [length_ data_] in *. repeat split; try assumption. lia.
      * unfold length, capacity. cbn [length_]. split; exact Olen.
    + split; [intros _; split; exact A |].
      split; [intros H; contradiction |].
      destruct A as (_ & C & _). unfold capacity in *. split; exact C.
  - unfold FixedString_string, op_assign_string.
    split; [| split]; apply assign_string_assigned; assumption.
  - intros Hlen Hmem. unfold FixedString_ptr.
    split; apply assign_ptr_assigned; assumption.
  - intros Hs. apply FixedString_cstr_assigned; assumption.
Qed.

Lemma FixedString_length_within_capacity_witness :
  let self := mkFixedString 77%N (repeat " "%char 4) in
  let other := mkFixedString 2%N (repeat "x"%char 8) in
  let s := ["w"; "o"; "r"; "l"; "d"]%char in
  length (assign_string 4 self s) = 4%N /\
  str (assign_string 4 self s) = ["w"; "o"; "r"; "l"]%char /\
  (length (FixedString_cstr 4 self s) <= capacity 4 self)%N /\
  assigned 4 self (FixedString_copy 4 8 self other)
    (data other) (length other).
Proof.
  cbv zeta.
  pose proof (FixedString_length_within_capacity 4 8
                (mkFixedString 77%N (repeat " "%char 4))
                (mkFixedString 2%N (repeat "x"%char 8))
                ["w"; "o"; "r"; "l"; "d"]%char 3) as T.
  destruct T as (B & (_ & Cp & _) & S & _).
  - reflexivity.
  - reflexivity.
  - split; [reflexivity | cbn; lia].
  - destruct B as (_ & _ & _ & _ & B).
    destruct S as ((L & _) & _).
    split; [exact L |]. split; [reflexivity |]. split; [exact B |].
    apply Cp. discriminate.
Defined.

(** ** [FixedString]: the content of a string *)

Section FixedStringContent.

Context {CHAR : Type}.
Variable MAXLEN : N.
Hypothesis MAXLEN_uint : (MAXLEN < 2 ^ 32)%N.
Variable self : FixedString CHAR.
Hypothesis self_array : List.length (data_ self) = N.to_nat MAXLEN.

Lemma assigned_str (r : FixedString CHAR) (src : list CHAR) (n : N) :
  assigned MAXLEN self r src n ->
  str r = firstn (N.to_nat (N.min n MAXLEN)) src /\ well_formed MAXLEN r.
Proof.
  intros (L & C & P & _ & A). unfold str, well_formed.
  unfold length, data, capacity in *. rewrite P, L.
  repeat split; [exact A | lia].
Qed.

Lemma firstn_min_length (s : list CHAR) (m : nat) :
  firstn (Nat.min (List.length s) m) s = firstn m s.
Proof.
  destruct (Nat.le_ge_cases (List.length s) m) as [H | H].
  - rewrite Nat.min_l by exact H. rewrite !firstn_all2; auto.
  - rewrite Nat.min_r by exact H. reflexivity.
Qed.

Lemma str_assign_string (s : list CHAR) :
  str (assign_string MAXLEN self s) = firstn (N.to_nat MAXLEN) s.
Proof.
  destruct (assigned_str _ _ _
              (assign_string_assigned MAXLEN MAXLEN_uint self self_array s))
    as [E _].
  rewrite E, <- (firstn_min_length s (N.to_nat MAXLEN)). f_equal. lia.
Qed.

Lemma str_assign (MAXLEN2 : N) (other : FixedString CHAR) :
  well_formed MAXLEN2 other ->
  str (assign MAXLEN self other) = firstn (N.to_nat MAXLEN) (str other).
Proof.
  intros W.
  destruct (assigned_str _ _ _
              (assign_assigned MAXLEN MAXLEN_uint self self_array
                 MAXLEN2 other W)) as [E _].
  rewrite E. unfold str, data, length. rewrite firstn_firstn. f_equal. lia.
Qed.

End FixedStringContent.

(** X14.  Assigning a string keeps its first [MAXLEN] characters: [str] gives back
    the whole string when it fits, and the result is a well-formed object.
    Assigning from another [FixedString] keeps the first [MAXLEN] characters
    of its content, all of it when it fits. *)
Theorem FixedString_str_roundtrip {CHAR : Type} (MAXLEN MAXLEN2 : N)
    (self other : FixedString CHAR) (s : list CHAR) :
  (MAXLEN < 2 ^ 32)%N ->
  List.length (data_ self) = N.to_nat MAXLEN ->
  well_formed MAXLEN2 other ->
  str (assign_string MAXLEN self s) = firstn (N.to_nat MAXLEN) s /\
  ((N.of_nat (List.length s) <= MAXLEN)%N ->
   str (assign_string MAXLEN self s) = s) /\
  well_formed MAXLEN (assign_string MAXLEN self s) /\
  str (assign MAXLEN self other) = firstn (N.to_nat MAXLEN) (str other) /\
  ((length other <= MAXLEN)%N ->
   str (assign MAXLEN self other) = str other /\
   length (assign MAXLEN self other) = length other) /\
  well_formed MAXLEN (assign MAXLEN self other).
Proof.
  intros Hmax Harr W.
  pose proof (str_assign_string MAXLEN Hmax self Harr s) as Es.
  pose proof (str_assign MAXLEN Hmax self Harr MAXLEN2 other W) as Eo.
  pose proof (assign_string_assigned MAXLEN Hmax self Harr s) as As.
  pose proof (assign_assigned MAXLEN Hmax self Harr MAXLEN2 other W) as Ao.
  split; [exact Es |].
  split; [intros Hfit; rewrite Es; apply firstn_all2; lia |].
  split; [eapply proj2, assigned_str; eassumption |].
  split; [exact Eo |].
  split; [| eapply proj2, assigned_str; eassumption].
  intros Hfit. split.
  - rewrite Eo. apply firstn_all2. unfold str.
    rewrite length_firstn. unfold length in Hfit. lia.
  - destruct Ao as (L & _). rewrite L. lia.
Qed.

Lemma FixedString_str_roundtrip_witness :
  let self := mkFixedString 77%N (repeat " "%char 4) in
  str (assign_string 4 self ["a"; "b"; "c"]%char) = ["a"; "b"; "c"]%char /\
  str (assign_string 4 self ["h"; "e"; "l"; "l"; "o"]%char)
  = ["h"; "e"; "l"; "l"]%char.
Proof.
  cbv zeta. split.
  - refine (proj1 (proj2 (FixedString_str_roundtrip 4 8
               (mkFixedString 77%N (repeat " "%char 4))
               (mkFixedString 2%N (repeat "x"%char 8))
               ["a"; "b"; "c"]%char _ _ _)) _).
    + reflexivity.
    + reflexivity.
    + split; [reflexivity | cbn; lia].
    + cbn. lia.
  - refine (proj1 (FixedString_str_roundtrip 4 8
               (mkFixedString 77%N (repeat " "%char 4))
               (mkFixedString 2%N (repeat "x"%char 8))
               ["h"; "e"; "l"; "l"; "o"]%char _ _ _)).
    + reflexivity.
    + reflexivity.
    + split; [reflexivity | cbn; lia].
Defined.

(** X15.  A [FixedString<MAXLEN2>] that holds [MAXLEN2] characters is a
    well-formed object, which [assign_string] produces from any string of at
    least that length, and the assertion at the head of the copying [assign]
    does not hold for it: the assertion is [length < MAXLEN2]. *)
Theorem assign_assert_rejects_full_string {CHAR : Type} (MAXLEN2 : N)
    (mem : FixedString CHAR) (s : list CHAR) :
  (MAXLEN2 < 2 ^ 32)%N ->
  List.length (data_ mem) = N.to_nat MAXLEN2 ->
  (MAXLEN2 <= N.of_nat (List.length s))%N ->
  let other := assign_string MAXLEN2 mem s in
  well_formed MAXLEN2 other /\ length other = MAXLEN2 /\
  str other = firstn (N.to_nat MAXLEN2) s /\
  assign_assert MAXLEN2 other = false.
Proof.
  intros Hmax Harr Hlong. cbv zeta.
  pose proof (assign_string_assigned MAXLEN2 Hmax mem Harr s) as A.
  assert (W : well_formed MAXLEN2 (assign_string MAXLEN2 mem s))
    by (eapply proj2, assigned_str; eassumption).
  destruct A as (L & _).
  assert (E : length (assign_string MAXLEN2 mem s) = MAXLEN2)
    by (rewrite L; lia).
  split; [exact W |]. split; [exact E |].
  split; [apply str_assign_string; assumption |].
  unfold assign_assert. rewrite E. apply N.ltb_irrefl.
Qed.

Lemma assign_assert_rejects_full_string_witness :
  let other :=
    assign_string 4 (mkFixedString 0%N (repeat " "%char 4))
      ["h"; "e"; "l"; "l"; "o"]%char in
  well_formed 4 other /\ length other = 4%N /\
  str other = firstn 4 ["h"; "e"; "l"; "l"; "o"]%char /\
  assign_assert 4 other = false.
Proof.
  apply (assign_assert_rejects_full_string 4
           (mkFixedString 0%N (repeat " "%char 4))
           ["h"; "e"; "l"; "l"; "o"]%char).
  - reflexivity.
  - reflexivity.
  - cbn. lia.
Defined.

(** ** [FixedString]: comparison *)

Lemma app_eq_same_length {T : Type} (x y u w : list T) :
  List.length x = List.length y -> x ++ u = y ++ w -> x = y /\ u = w.
Proof.
  revert y. induction x as [| a x IH]; intros [| b y] L E; cbn in *;
    try discriminate.
  - split; [reflexivity | exact E].
  - injection E as -> E. injection L as L.
    destruct (IH y L E) as [-> ->]. split; reflexivity.
Qed.

Lemma memcmp_prefix_zero (pa : list N) : forall pb xa xb,
  List.length pa = List.length pb ->
  (memcmp (pa ++ xa) (pb ++ xb) (List.length pa) = 0 <-> pa = pb).
Proof.
  induction pa as [| x pa IH]; intros [| y pb] xa xb L; cbn in L;
    try discriminate.
  - cbn. split; reflexivity.
  - injection L as L. cbn [app List.length memcmp].
    destruct (N.ltb_spec x y) as [Hxy | Hxy].
    + split; [discriminate | intros E; injection E as -> _; lia].
    + destruct (N.ltb_spec y x) as [Hyx | Hyx].
      * split; [discriminate | intros E; injection E as -> _; lia].
      * assert (x = y) as -> by lia.
        rewrite (IH pb xa xb L).
        split; [intros ->; reflexivity | intros E; injection E; auto].
Qed.

Lemma lex_ltb_prefix (pa : list N) : forall pb xa xb,
  List.length pa = List.length pb ->
  lex_ltb (pa ++ xa) (pb ++ xb) =
  let r := memcmp (pa ++ xa) (pb ++ xb) (List.length pa) in
  if negb (r =? 0) then r <? 0 else lex_ltb xa xb.
Proof.
  induction pa as [| x pa IH]; intros [| y pb] xa xb L; cbn in L;
    try discriminate.
  - cbn. reflexivity.
  - injection L as L. cbn [app List.length memcmp lex_ltb]. cbv zeta.
    destruct (N.ltb_spec x y) as [Hxy | Hxy]; [reflexivity |].
    destruct (N.ltb_spec y x) as [Hyx | Hyx].
    + destruct (N.eqb_spec x y); [lia | reflexivity].
    + assert (x = y) as -> by lia. rewrite N.eqb_refl. cbn [orb andb].
      apply IH. exact L.
Qed.

Lemma lex_ltb_nil_r (a : list N) : lex_ltb a [] = false.
Proof. destruct a; reflexivity. Qed.

Lemma lex_ltb_irrefl (a : list N) : lex_ltb a a = false.
Proof.
  induction a as [| x a IH]; [reflexivity |].
  cbn. rewrite N.ltb_irrefl, N.eqb_refl. exact IH.
Qed.

Lemma lex_ltb_asym (a : list N) : forall b,
  lex_ltb a b = true -> lex_ltb b a = false.
Proof.
  induction a as [| x a IH]; intros [| y b] H; cbn in *; try discriminate;
    try reflexivity.
  destruct (N.ltb_spec x y), (N.ltb_spec y x), (N.eqb_spec x y),
    (N.eqb_spec y x); cbn in *; try lia; try discriminate; auto.
Qed.

Lemma lex_ltb_trans (a : list N) : forall b c,
  lex_ltb a b = true -> lex_ltb b c = true -> lex_ltb a c = true.
Proof.
  induction a as [| x a IH]; intros [| y b] [| z c] H1 H2; cbn in *;
    try discriminate; try reflexivity.
  destruct (N.ltb_spec x y), (N.ltb_spec y z), (N.ltb_spec x z),
    (N.eqb_spec x y), (N.eqb_spec y z), (N.eqb_spec x z);
    cbn in *; try lia; try discriminate; try reflexivity; eauto.
Qed.

Lemma lex_ltb_connected (a : list N) : forall b,
  lex_ltb a b = false -> lex_ltb b a = false -> a = b.
Proof.
  induction a as [| x a IH]; intros [| y b] H1 H2; cbn in *;
    try discriminate; try reflexivity.
  destruct (N.ltb_spec x y), (N.ltb_spec y x), (N.eqb_spec x y),
    (N.eqb_spec y x); cbn in *; try lia; try discriminate.
  subst. f_equal. apply IH; assumption.
Qed.

Section FixedStringCompare.

Context {CHAR : Type}.
Variable sizeof_CHAR : nat.
Variable object_bytes : CHAR -> list N.
Hypothesis object_size : forall c, List.length (object_bytes c) = sizeof_CHAR.

Local Abbreviation bytes := (array_bytes object_bytes).

Lemma array_bytes_app (a b : list CHAR) : bytes (a ++ b) = bytes a ++ bytes b.
Proof. apply flat_map_app. Qed.

Lemma array_bytes_length (a : list CHAR) :
  List.length (bytes a) = (List.length a * sizeof_CHAR)%nat.
Proof.
  induction a as [| c a IH]; [reflexivity |].
  cbn [array_bytes flat_map List.length].
  rewrite length_app, object_size. unfold array_bytes in IH. rewrite IH.
  reflexivity.
Qed.

Lemma array_bytes_nil (a : list CHAR) :
  (0 < sizeof_CHAR)%nat -> bytes a = [] -> a = [].
Proof.
  intros Hsz E. apply (f_equal (@List.length N)) in E.
  rewrite array_bytes_length in E. cbn in E.
  destruct a; [reflexivity | cbn in E; lia].
Qed.

(** The bytes of an array, split after its first [k] elements. *)
Lemma array_bytes_split (a : list CHAR) (k : nat) :
  (k <= List.length a)%nat ->
  bytes a = bytes (firstn k a) ++ bytes (skipn k a) /\
  List.length (bytes (firstn k a)) = (k * sizeof_CHAR)%nat.
Proof.
  intros Hk. split.
  - rewrite <- array_bytes_app, firstn_skipn. reflexivity.
  - rewrite array_bytes_length, length_firstn. f_equal. lia.
Qed.

Hypothesis object_inj : forall c c', object_bytes c = object_bytes c' -> c = c'.

Lemma array_bytes_inj (a : list CHAR) : forall b,
  List.length a = List.length b -> bytes a = bytes b -> a = b.
Proof.
  induction a as [| c a IH]; intros [| c' b] L E; cbn in L;
    try discriminate; [reflexivity |].
  injection L as L. cbn [array_bytes flat_map] in E.
  apply app_eq_same_length in E; [| rewrite !object_size; reflexivity].
  destruct E as [Ec Er]. apply object_inj in Ec. subst c'.
  f_equal. apply IH; assumption.
Qed.

End FixedStringCompare.

Section FixedStringOperators.

Context {CHAR : Type}.
Variable sizeof_CHAR : nat.
Variable object_bytes : CHAR -> list N.
Hypothesis object_size : forall c, List.length (object_bytes c) = sizeof_CHAR.

Local Abbreviation bytes := (array_bytes object_bytes).

(** The comparison of the first [k] elements of two arrays that have them. *)
Lemma memcmp_arrays_zero (x y : list CHAR) (k : nat) :
  (k <= List.length x)%nat -> (k <= List.length y)%nat ->
  (memcmp (bytes x) (bytes y) (k * sizeof_CHAR) = 0
   <-> bytes (firstn k x) = bytes (firstn k y)).
Proof.
  intros Hx Hy.
  destruct (array_bytes_split sizeof_CHAR object_bytes object_size x k Hx)
    as [Ex Lx].
  destruct (array_bytes_split sizeof_CHAR object_bytes object_size y k Hy)
    as [Ey Ly].
  rewrite Ex, Ey at 1. rewrite <- Lx.
  apply memcmp_prefix_zero. rewrite Lx, Ly. reflexivity.
Qed.

Lemma lex_ltb_arrays (x y : list CHAR) (k : nat) :
  (k <= List.length x)%nat -> (k <= List.length y)%nat ->
  lex_ltb (bytes x) (bytes y) =
  let r := memcmp (bytes x) (bytes y) (k * sizeof_CHAR) in
  if negb (r =? 0) then r <? 0
  else lex_ltb (bytes (skipn k x)) (bytes (skipn k y)).
Proof.
  intros Hx Hy.
  destruct (array_bytes_split sizeof_CHAR object_bytes object_size x k Hx)
    as [Ex Lx].
  destruct (array_bytes_split sizeof_CHAR object_bytes object_size y k Hy)
    as [Ey Ly].
  rewrite Ex, Ey. rewrite <- Lx.
  apply lex_ltb_prefix. rewrite Lx, Ly. reflexivity.
Qed.

Variables MAXLEN1 MAXLEN2 : N.
Variables a b : FixedString CHAR.
Hypothesis a_ok : well_formed MAXLEN1 a.
Hypothesis b_ok : well_formed MAXLEN2 b.

Lemma str_length (M : N) (s : FixedString CHAR) :
  well_formed M s -> List.length (str s) = N.to_nat (length_ s).
Proof.
  intros [A L]. unfold str. rewrite length_firstn. lia.
Qed.

Lemma op_eq_string_iff (s : list CHAR) :
  (forall c c', object_bytes c = object_bytes c' -> c = c') ->
  op_eq_string sizeof_CHAR object_bytes a s = true <-> str a = s.
Proof.
  intros object_inj. pose proof (str_length _ _ a_ok) as La.
  destruct a_ok as [Aa Ha]. unfold op_eq_string.
  destruct (N.eqb_spec (length_ a) 0) as [Z0 | NZ].
  - unfold str in *. rewrite Z0 in *. cbn [N.to_nat firstn] in *.
    rewrite N.eqb_eq. split.
    + intros E. destruct s; [reflexivity | cbn in E; lia].
    + intros <-. reflexivity.
  - rewrite andb_true_iff, N.eqb_eq, Z.eqb_eq. split.
    + intros [El Em].
      assert (Ks : N.to_nat (length_ a) = List.length s) by lia.
      apply memcmp_arrays_zero in Em; try lia.
      apply array_bytes_inj with (sizeof_CHAR := sizeof_CHAR) in Em;
        try assumption.
      * unfold str. rewrite Em, Ks. apply firstn_all.
      * rewrite !length_firstn. lia.
    + intros <-. split; [lia |].
      apply memcmp_arrays_zero; try lia.
      unfold str. rewrite firstn_firstn, Nat.min_id. reflexivity.
Qed.


Lemma op_eq_iff :
  (forall c c', object_bytes c = object_bytes c' -> c = c') ->
  op_eq sizeof_CHAR object_bytes a b = true <-> str a = str b.
Proof.
  intros object_inj.
  pose proof (str_length _ _ a_ok) as La.
  pose proof (str_length _ _ b_ok) as Lb.
  destruct a_ok as [Aa Ha], b_ok as [Ab Hb]. unfold op_eq, length, data.
  destruct (N.eqb_spec (length_ a) 0) as [Z0 | NZ].
  - rewrite N.eqb_eq. split.
    + intros E. unfold str. rewrite Z0, E. reflexivity.
    + intros E. rewrite <- E, La, Z0 in Lb. cbn in Lb. lia.
  - rewrite andb_true_iff, N.eqb_eq, Z.eqb_eq. split.
    + intros [El Em].
      apply memcmp_arrays_zero in Em; try lia.
      apply array_bytes_inj with (sizeof_CHAR := sizeof_CHAR) in Em;
        try assumption.
      * unfold str. rewrite <- El. exact Em.
      * rewrite !length_firstn. lia.
    + intros E.
      assert (El : length_ a = length_ b) by (rewrite E in La; lia).
      split; [exact El |].
      apply memcmp_arrays_zero; try lia.
      unfold str in E. rewrite <- El in E. rewrite E. reflexivity.
Qed.

Lemma memcmp_prefix_only (n : nat) : forall p q x y,
  (n <= List.length p)%nat -> (n <= List.length q)%nat ->
  memcmp (p ++ x) (q ++ y) n = memcmp p q n.
Proof.
  induction n as [| n IH]; intros p q x y Hp Hq; [reflexivity |].
  destruct p as [| u p]; [cbn in Hp; lia |].
  destruct q as [| w q]; [cbn in Hq; lia |].
  cbn in Hp, Hq. cbn [app memcmp]. rewrite IH by lia. reflexivity.
Qed.

Lemma lex_ltb_nil_l (y : list N) :
  lex_ltb [] y = negb (Nat.eqb (List.length y) 0).
Proof. destruct y; reflexivity. Qed.

Hypothesis sizeof_pos : (0 < sizeof_CHAR)%nat.
Hypothesis MAXLEN1_uint : (MAXLEN1 < 2 ^ 32)%N.
Hypothesis MAXLEN2_uint : (MAXLEN2 < 2 ^ 32)%N.

Lemma op_lt_lex :
  op_lt sizeof_CHAR object_bytes a b = lex_ltb (bytes (str a)) (bytes (str b)).
Proof.
  pose proof (str_length _ _ a_ok) as La.
  pose proof (str_length _ _ b_ok) as Lb.
  destruct a_ok as [Aa Ha], b_ok as [Ab Hb].
  set (k := Nat.min (N.to_nat (length_ a)) (N.to_nat (length_ b))).
  assert (M : min_uint32 (length_ a) (length b)
              = N.min (length_ a) (length_ b)).
  { unfold min_uint32, uint32N, length.
    rewrite !N.mod_small by lia.
    destruct (N.ltb_spec (length_ b) (length_ a)); lia. }
  assert (K : N.to_nat (N.min (length_ a) (length_ b)) = k) by (subst k; lia).
  (* the comparison that the operator makes reads the contents only *)
  assert (R : memcmp (bytes (data_ a)) (bytes (data b)) (k * sizeof_CHAR)
              = memcmp (bytes (str a)) (bytes (str b)) (k * sizeof_CHAR)).
  { unfold data.
    destruct (array_bytes_split sizeof_CHAR object_bytes object_size
                (data_ a) (N.to_nat (length_ a)) ltac:(lia)) as [Ea _].
    destruct (array_bytes_split sizeof_CHAR object_bytes object_size
                (data_ b) (N.to_nat (length_ b)) ltac:(lia)) as [Eb _].
    rewrite Ea, Eb. fold (str a). fold (str b).
    apply memcmp_prefix_only;
      rewrite (array_bytes_length sizeof_CHAR object_bytes object_size);
      subst k; nia. }
  (* what is left of the two contents after their common length *)
  assert (T : lex_ltb (bytes (skipn k (str a))) (bytes (skipn k (str b)))
              = (length_ a <? length b)%N).
  { unfold length. destruct (N.ltb_spec (length_ a) (length_ b)) as [Hlt | Hge].
    - rewrite (skipn_all2 (str a)) by (subst k; lia).
      cbn [array_bytes flat_map]. rewrite lex_ltb_nil_l.
      rewrite (array_bytes_length sizeof_CHAR object_bytes object_size),
        length_skipn.
      destruct (Nat.eqb_spec
                  ((List.length (str b) - k) * sizeof_CHAR) 0) as [E | E];
        [subst k; nia | reflexivity].
    - rewrite (skipn_all2 (str b)) by (subst k; lia).
      apply lex_ltb_nil_r. }
  rewrite (lex_ltb_arrays (str a) (str b) k) by (subst k; lia).
  cbv zeta. rewrite T, <- R.
  unfold op_lt. cbv zeta. rewrite M, K.
  destruct (N.eqb_spec (N.min (length_ a) (length_ b)) 0) as [Z0 | NZ];
    [| reflexivity].
  replace k with 0%nat by lia. reflexivity.
Qed.

End FixedStringOperators.

Lemma FixedString_less_than_lexicographic_aux {CHAR : Type}
    (sizeof_CHAR : nat) (object_bytes : CHAR -> list N)
    (MAXLEN1 MAXLEN2 : N) (a b : FixedString CHAR) :
  (forall c, List.length (object_bytes c) = sizeof_CHAR) ->
  (0 < sizeof_CHAR)%nat ->
  (MAXLEN1 < 2 ^ 32)%N -> (MAXLEN2 < 2 ^ 32)%N ->
  well_formed MAXLEN1 a -> well_formed MAXLEN2 b ->
  op_lt sizeof_CHAR object_bytes a b
  = lex_ltb (array_bytes object_bytes (str a))
            (array_bytes object_bytes (str b)).
Proof. intros. eapply op_lt_lex; eassumption. Qed.

(** X16.  [operator==] and [operator!=], against a [FixedString] or a
    [std::basic_string], decide whether the contents are the same, whatever
    the capacities and whatever the arrays hold past the lengths. *)
Theorem FixedString_equality_decides_content {CHAR : Type}
    (sizeof_CHAR : nat) (object_bytes : CHAR -> list N)
    (MAXLEN1 MAXLEN2 : N) (a b : FixedString CHAR) (s : list CHAR) :
  (forall c, List.length (object_bytes c) = sizeof_CHAR) ->
  (forall c c', object_bytes c = object_bytes c' -> c = c') ->
  well_formed MAXLEN1 a -> well_formed MAXLEN2 b ->
  (op_eq sizeof_CHAR object_bytes a b = true <-> str a = str b) /\
  (op_ne sizeof_CHAR object_bytes a b = true <-> str a <> str b) /\
  (op_eq_string sizeof_CHAR object_bytes a s = true <-> str a = s) /\
  (op_ne_string sizeof_CHAR object_bytes a s = true <-> str a <> s).
Proof.
  intros Hsize Hinj Wa Wb.
  assert (E : op_eq sizeof_CHAR object_bytes a b = true <-> str a = str b)
    by (eapply op_eq_iff; eassumption).
  assert (S : op_eq_string sizeof_CHAR object_bytes a s = true <-> str a = s)
    by (eapply op_eq_string_iff; eassumption).
  split; [exact E |]. split; [| split; [exact S |]].
  - unfold op_ne. rewrite negb_true_iff, <- not_true_iff_false, E.
    reflexivity.
  - unfold op_ne_string. rewrite negb_true_iff, <- not_true_iff_false, S.
    reflexivity.
Qed.

Lemma char_bytes_inj (c c' : ascii) :
  [N_of_ascii c] = [N_of_ascii c'] -> c = c'.
Proof.
  intros E. injection E as E.
  rewrite <- (ascii_N_embedding c), <- (ascii_N_embedding c'), E.
  reflexivity.
Qed.

Lemma FixedString_equality_decides_content_witness :
  let a := mkFixedString 2%N ["h"; "i"; "x"; "y"]%char in
  let b := mkFixedString 2%N ["h"; "i"; "!"; "!"; "!"; "!"; "!"; "!"]%char in
  op_eq 1 (fun c => [N_of_ascii c]) a b = true.
Proof.
  cbv zeta.
  refine (proj2 (proj1 (FixedString_equality_decides_content 1
                          (fun c => [N_of_ascii c]) 4 8
                          (mkFixedString 2%N ["h"; "i"; "x"; "y"]%char)
                          (mkFixedString 2%N
                             ["h"; "i"; "!"; "!"; "!"; "!"; "!"; "!"]%char)
                          [] _ _ _ _)) _).
  - reflexivity.
  - exact char_bytes_inj.
  - split; [reflexivity | cbn; lia].
  - split; [reflexivity | cbn; lia].
  - reflexivity.
Defined.

(** X17.  [operator<] is the lexicographic order of the bytes of the two contents:
    the first byte that differs decides, and a proper prefix is smaller. *)
Theorem FixedString_less_than_lexicographic {CHAR : Type}
    (sizeof_CHAR : nat) (object_bytes : CHAR -> list N)
    (MAXLEN1 MAXLEN2 : N) (a b : FixedString CHAR) :
  (forall c, List.length (object_bytes c) = sizeof_CHAR) ->
  (0 < sizeof_CHAR)%nat ->
  (MAXLEN1 < 2 ^ 32)%N -> (MAXLEN2 < 2 ^ 32)%N ->
  well_formed MAXLEN1 a -> well_formed MAXLEN2 b ->
  op_lt sizeof_CHAR object_bytes a b
  = lex_ltb (array_bytes object_bytes (str a))
            (array_bytes object_bytes (str b)).
Proof. intros. apply (FixedString_less_than_lexicographic_aux sizeof_CHAR object_bytes MAXLEN1 MAXLEN2); assumption. Qed.

Lemma FixedString_less_than_lexicographic_witness :
  op_lt 1 (fun c => [N_of_ascii c])
    (mkFixedString 2%N ["a"; "b"; "z"; "z"]%char)
    (mkFixedString 3%N ["a"; "b"; "c"; "a"]%char)
  = lex_ltb [97; 98]%N [97; 98; 99]%N.
Proof.
  apply (FixedString_less_than_lexicographic 1 (fun c => [N_of_ascii c]) 4 4
           (mkFixedString 2%N ["a"; "b"; "z"; "z"]%char)
           (mkFixedString 3%N ["a"; "b"; "c"; "a"]%char)).
  - reflexivity.
  - lia.
  - reflexivity.
  - reflexivity.
  - split; [reflexivity | cbn; lia].
  - split; [reflexivity | cbn; lia].
Defined.

(** X18.  [operator<] is a strict total order on contents that agrees with
    [operator==]: it is irreflexive, asymmetric and transitive, and two
    strings are equal exactly when neither is less than the other. *)
Theorem FixedString_less_than_strict_total_order {CHAR : Type}
    (sizeof_CHAR : nat) (object_bytes : CHAR -> list N)
    (MAXLEN1 MAXLEN2 MAXLEN3 : N) (a b c : FixedString CHAR) :
  (forall x, List.length (object_bytes x) = sizeof_CHAR) ->
  (forall x y, object_bytes x = object_bytes y -> x = y) ->
  (0 < sizeof_CHAR)%nat ->
  (MAXLEN1 < 2 ^ 32)%N -> (MAXLEN2 < 2 ^ 32)%N -> (MAXLEN3 < 2 ^ 32)%N ->
  well_formed MAXLEN1 a -> well_formed MAXLEN2 b -> well_formed MAXLEN3 c ->
  op_lt sizeof_CHAR object_bytes a a = false /\
  (op_lt sizeof_CHAR object_bytes a b = true ->
   op_lt sizeof_CHAR object_bytes b a = false) /\
  (op_lt sizeof_CHAR object_bytes a b = true ->
   op_lt sizeof_CHAR object_bytes b c = true ->
   op_lt sizeof_CHAR object_bytes a c = true) /\
  (op_eq sizeof_CHAR object_bytes a b = true <->
   op_lt sizeof_CHAR object_bytes a b = false /\
   op_lt sizeof_CHAR object_bytes b a = false).
Proof.
  intros Hsize Hinj Hpos M1 M2 M3 Wa Wb Wc.
  rewrite (FixedString_less_than_lexicographic_aux sizeof_CHAR object_bytes
             MAXLEN1 MAXLEN1 a a) by assumption.
  rewrite (FixedString_less_than_lexicographic_aux sizeof_CHAR object_bytes
             MAXLEN1 MAXLEN2 a b) by assumption.
  rewrite (FixedString_less_than_lexicographic_aux sizeof_CHAR object_bytes
             MAXLEN2 MAXLEN1 b a) by assumption.
  rewrite (FixedString_less_than_lexicographic_aux sizeof_CHAR object_bytes
             MAXLEN2 MAXLEN3 b c) by assumption.
  rewrite (FixedString_less_than_lexicographic_aux sizeof_CHAR object_bytes
             MAXLEN1 MAXLEN3 a c) by assumption.
  split; [apply lex_ltb_irrefl |].
  split; [apply lex_ltb_asym |].
  split; [apply lex_ltb_trans |].
  rewrite (op_eq_iff sizeof_CHAR object_bytes Hsize MAXLEN1 MAXLEN2 a b
             Wa Wb Hinj).
  pose proof (str_length MAXLEN1 a Wa) as La.
  pose proof (str_length MAXLEN2 b Wb) as Lb.
  split.
  - intros ->. split; apply lex_ltb_irrefl.
  - intros [H1 H2].
    apply (array_bytes_inj sizeof_CHAR object_bytes Hsize Hinj).
    + pose proof (lex_ltb_connected _ _ H1 H2) as E.
      apply (f_equal (@List.length N)) in E.
      rewrite !(array_bytes_length sizeof_CHAR object_bytes Hsize) in E.
      nia.
    + apply lex_ltb_connected; assumption.
Qed.

Lemma FixedString_less_than_strict_total_order_witness :
  let a := mkFixedString 2%N ["a"; "b"; "z"; "z"]%char in
  let b := mkFixedString 3%N ["a"; "b"; "c"; "a"]%char in
  op_lt 1 (fun c => [N_of_ascii c]) a a = false /\
  op_lt 1 (fun c => [N_of_ascii c]) b a = false.
Proof.
  cbv zeta.
  pose proof (FixedString_less_than_strict_total_order 1
                (fun c => [N_of_ascii c]) 4 4 4
                (mkFixedString 2%N ["a"; "b"; "z"; "z"]%char)
                (mkFixedString 3%N ["a"; "b"; "c"; "a"]%char)
                (mkFixedString 0%N ["a"; "b"; "c"; "a"]%char)) as T.
  destruct T as (I & A & _).
  - reflexivity.
  - exact char_bytes_inj.
  - lia.
  - reflexivity.
  - reflexivity.
  - reflexivity.
  - split; [reflexivity | cbn; lia].
  - split; [reflexivity | cbn; lia].
  - split; [reflexivity | cbn; lia].
  - split; [exact I | apply A; reflexivity].
Defined.

(** ** [Savepoint::populate_empty] *)

Lemma resize_length {T : Type} (v : list T) (n : nat) (x : T) :
  List.length (savepoint.resize v n x) = n.
Proof.
  unfold savepoint.resize.
  rewrite length_app, length_firstn, repeat_length. lia.
Qed.

Lemma resize_nth (v : list N) (n i : nat) :
  (i < n)%nat -> nth i (savepoint.resize v n 0%N) 0%N = nth i v 0%N.
Proof.
  intros Hi. unfold savepoint.resize.
  destruct (Nat.lt_ge_cases i (List.length v)) as [Hin | Hout].
  - rewrite app_nth1 by (rewrite length_firstn; lia).
    rewrite <- (firstn_skipn n v) at 2.
    rewrite app_nth1 by (rewrite length_firstn; lia). reflexivity.
  - rewrite (nth_overflow v) by exact Hout.
    rewrite firstn_all2 by lia.
    rewrite app_nth2 by exact Hout. apply nth_repeat.
Qed.

Lemma resize_same_size {T : Type} (v : list T) (n : nat) (x : T) :
  List.length v = n -> savepoint.resize v n x = v.
Proof.
  intros <-. unfold savepoint.resize.
  rewrite firstn_all, Nat.sub_diag. apply app_nil_r.
Qed.

(** X19.  After [populate_empty] each of the four vectors has one entry per
    logger, the durable epoch is 1 and the current epoch 2, both valid and
    in that order; on a savepoint whose vectors are empty, as the
    constructor leaves them, every entry is 0. *)
Theorem populate_empty_sizes (self : savepoint.Savepoint)
    (logger_count : nat) :
  let s := savepoint.populate_empty self logger_count in
  List.length (savepoint.oldest_log_files_ s) = logger_count /\
  List.length (savepoint.oldest_log_files_offset_begin_ s) = logger_count /\
  List.length (savepoint.current_log_files_ s) = logger_count /\
  List.length (savepoint.current_log_files_offset_durable_ s)
  = logger_count /\
  savepoint.current_epoch_ s = 2%N /\ savepoint.durable_epoch_ s = 1%N /\
  (savepoint.oldest_log_files_ self = [] ->
   savepoint.oldest_log_files_offset_begin_ self = [] ->
   savepoint.current_log_files_ self = [] ->
   savepoint.current_log_files_offset_durable_ self = [] ->
   s = savepoint.mkSavepoint 2 1 (repeat 0%N logger_count)
         (repeat 0%N logger_count) (repeat 0%N logger_count)
         (repeat 0%N logger_count)).
Proof.
  cbv zeta. unfold savepoint.populate_empty.
  cbn [savepoint.oldest_log_files_ savepoint.oldest_log_files_offset_begin_
       savepoint.current_log_files_
       savepoint.current_log_files_offset_durable_
       savepoint.current_epoch_ savepoint.durable_epoch_].
  rewrite !resize_length. repeat split.
  intros -> -> -> ->. unfold savepoint.resize.
  rewrite firstn_nil, Nat.sub_0_r. reflexivity.
Qed.

Lemma populate_empty_sizes_witness :
  savepoint.populate_empty (savepoint.mkSavepoint 0 0 [] [] [] []) 3
  = savepoint.mkSavepoint 2 1 [0; 0; 0]%N [0; 0; 0]%N [0; 0; 0]%N
      [0; 0; 0]%N.
Proof.
  refine (proj2 (proj2 (proj2 (proj2 (proj2 (proj2
            (populate_empty_sizes (savepoint.mkSavepoint 0 0 [] [] [] []) 3))))))
            _ _ _ _); reflexivity.
Defined.

(** X20.  [populate_empty] does not clear a savepoint that has entries: for every
    logger below [logger_count] an entry that was there is kept, and only a
    missing one is 0.  Applying it again with the same count changes
    nothing. *)
Theorem populate_empty_keeps_entries (self : savepoint.Savepoint)
    (logger_count i : nat) :
  (i < logger_count)%nat ->
  let s := savepoint.populate_empty self logger_count in
  nth i (savepoint.oldest_log_files_ s) 0%N
  = nth i (savepoint.oldest_log_files_ self) 0%N /\
  nth i (savepoint.oldest_log_files_offset_begin_ s) 0%N
  = nth i (savepoint.oldest_log_files_offset_begin_ self) 0%N /\
  nth i (savepoint.current_log_files_ s) 0%N
  = nth i (savepoint.current_log_files_ self) 0%N /\
  nth i (savepoint.current_log_files_offset_durable_ s) 0%N
  = nth i (savepoint.current_log_files_offset_durable_ self) 0%N /\
  savepoint.populate_empty s logger_count = s.
Proof.
  intros Hi. cbv zeta. unfold savepoint.populate_empty.
  cbn [savepoint.oldest_log_files_ savepoint.oldest_log_files_offset_begin_
       savepoint.current_log_files_
       savepoint.current_log_files_offset_durable_].
  rewrite !resize_nth by exact Hi.
  rewrite !(resize_same_size (savepoint.resize _ _ _))
    by apply resize_length.
  repeat split.
Qed.

Lemma populate_empty_keeps_entries_witness :
  nth 1 (savepoint.oldest_log_files_
           (savepoint.populate_empty
              (savepoint.mkSavepoint 7 6 [4; 5]%N [] [] []) 3)) 0%N = 5%N.
Proof.
  refine (proj1 (populate_empty_keeps_entries
                   (savepoint.mkSavepoint 7 6 [4; 5]%N [] [] []) 3 1 _)).
  lia.
Defined.
